(** * memory_cache: a sharded in-process TTL cache

    Shallow embedding of [memory_cache/memory_cache.go] and the properties
    of its entry store ([Cache]), its background sweeper ([janitor]) and its
    prefix router ([CacheGroup]).

    Conventions of the embedding.
    - [time.Time] instants are nanoseconds since the Unix epoch, as an
      unbounded [Z]; [Time.UnixNano] truncates to [int64] (two's complement
      wrap-around, written out in [wrap64]).  [time.Duration] is an [int64]
      count of nanoseconds.
    - [interface{}] values are a tagged union [iface]; the comma-ok type
      assertion [v.(string)] is [assert_string].
    - Go [map]s are [gmap]s.  [*Cache] pointers are locations into a heap
      of [Cache] objects; the directory of a [CacheGroup] maps shard
      identifiers to locations, so a shard removed from the directory stays
      allocated and its janitor goroutine keeps running, as in the source.
    - The janitor goroutine creates its ticker as it is started (line 26,
      with the panic of [time.NewTicker] on a non-positive interval) and is
      then a two-state machine ([run_pc]) whose steps are scheduled
      explicitly: reading the clock at the top of the loop (line 28) and
      handling a tick of the ticker (lines 30-37).
    - Code of the package runs in the monad [Go]: a state monad over [World]
      in which [None] is a run-time panic.  The [sync.RWMutex] critical
      sections are executed atomically; operations are interleaved at the
      granularity of one call (or one janitor step). *)

From Stdlib Require Import ZArith String Ascii List Lia Bool.
From stdpp Require Import base option gmap strings fin_maps fin_map_dom.

Local Open Scope Z_scope.

(** ** Machine integers and time *)

Definition int64_min : Z := - 2 ^ 63.
Definition int64_max : Z := 2 ^ 63 - 1.

(** Truncation of an integer to [int64]. *)
Definition wrap64 (z : Z) : Z := (z + 2 ^ 63) mod 2 ^ 64 - 2 ^ 63.

Definition in_int64 (z : Z) : Prop := int64_min <= z <= int64_max.

(** [time.Second], in nanoseconds. *)
Definition time_Second : Z := 1000000000.

(** [Time.Add]: exact on instants (the seconds counter of [time.Time] cannot
    overflow by adding a [Duration]). *)
Definition Time_Add (t d : Z) : Z := t + d.

(** [Time.UnixNano]: [unixSec*1e9 + nsec] computed in [int64]. *)
Definition Time_UnixNano (t : Z) : Z := wrap64 t.

(** ** Constants (lines 9-13) *)

Definition defultInterval : Z := time_Second * 1.
Definition defultExpiration : Z := 0.
Definition defultKeyLen : Z := 3.

(** ** Data model *)

(** Dynamic values held in an [interface{}]. *)
Inductive iface : Type :=
| Nil
| StringVal (s : string)
| IntVal (n : Z)
| BoolVal (b : bool)
| OtherVal (dyntype : string) (repr : string).

(** [sv, ok := v.(string)] *)
Definition assert_string (v : iface) : string * bool :=
  match v with
  | StringVal s => (s, true)
  | _ => (EmptyString, false)
  end.

(** The [error] interface: [nil] or a value made by [errors.New]. *)
Inductive error : Type :=
| nil_error
| errors_New (msg : string).

Definition err_key_not_found : error := errors_New "key not found".
Definition err_not_string : error := errors_New "value not is string".
Definition err_key_not_exist : error := errors_New "key not exist".

(** [type item struct] (lines 15-18) *)
Record item : Type := Item {
  object : iface;
  expiration : Z
}.

(** [type janitor struct] (lines 20-23); the [stop] channel is created and
    never used. *)
Record janitor : Type := Janitor {
  interval : Z
}.

(** [type Cache struct] (lines 51-56), without its mutex. *)
Record Cache : Type := MkCache {
  items : gmap string item;
  cache_janitor : janitor;
  cache_expiration : Z
}.

Definition loc : Type := positive.

(** [type CacheGroup struct] (lines 98-103), without its mutex. *)
Record CacheGroup : Type := MkCacheGroup {
  caches : gmap string loc;
  group_expiration : Z;
  keyLen : Z
}.

(** Control state of one [janitor.run] goroutine: at the top of the [for]
    loop (before line 28), or blocked in the [select] (line 29) holding the
    value of its local variable [now].  The creation of the ticker (line
    26) is the first step of the goroutine and is taken when it is started
    ([go_janitor_run]). *)
Inductive run_pc : Type :=
| AtLoopTop
| AtSelect (now : Z).

Record World : Type := MkWorld {
  clock : Z;
  heap : gmap loc Cache;
  goroutines : gmap loc run_pc;
  group : CacheGroup
}.

Definition set_items (f : gmap string item -> gmap string item) (c : Cache) : Cache :=
  MkCache (f (items c)) (cache_janitor c) (cache_expiration c).

Definition set_cache_expiration (e : Z) (c : Cache) : Cache :=
  MkCache (items c) (cache_janitor c) e.

Definition set_caches (f : gmap string loc -> gmap string loc) (g : CacheGroup) : CacheGroup :=
  MkCacheGroup (f (caches g)) (group_expiration g) (keyLen g).

Definition set_clock (t : Z) (w : World) : World :=
  MkWorld t (heap w) (goroutines w) (group w).

Definition set_heap (f : gmap loc Cache -> gmap loc Cache) (w : World) : World :=
  MkWorld (clock w) (f (heap w)) (goroutines w) (group w).

Definition set_goroutines (f : gmap loc run_pc -> gmap loc run_pc) (w : World) : World :=
  MkWorld (clock w) (heap w) (f (goroutines w)) (group w).

Definition set_group (f : CacheGroup -> CacheGroup) (w : World) : World :=
  MkWorld (clock w) (heap w) (goroutines w) (f (group w)).

(** ** The monad of Go code *)

Definition Go (A : Type) : Type := World -> option (A * World).

Definition ret {A} (a : A) : Go A := fun w => Some (a, w).

Definition bind {A B} (m : Go A) (k : A -> Go B) : Go B :=
  fun w => match m w with
           | Some (a, w') => k a w'
           | None => None
           end.

Definition panic {A} : Go A := fun _ => None.

Declare Scope go_scope.
Delimit Scope go_scope with go.
Notation "x <- m ;; k" := (bind m (fun x => k))
  (at level 100, m at next level, right associativity) : go_scope.
Notation "m ;;; k" := (bind m (fun _ => k))
  (at level 100, right associativity) : go_scope.
Local Open Scope go_scope.

Definition get_world : Go World := fun w => Some (w, w).
Definition modify (f : World -> World) : Go unit := fun w => Some (tt, f w).

(** [time.Now()] *)
Definition time_Now : Go Z := fun w => Some (clock w, w).

(** Dereference of a [*Cache]. *)
Definition load (l : loc) : Go Cache :=
  fun w => match heap w !! l with
           | Some c => Some (c, w)
           | None => None
           end.

Definition store (l : loc) (c : Cache) : Go unit :=
  modify (set_heap (insert l c)).

(** ** The sweeper (lines 25-49) *)

(** The test of line 33. *)
Definition sweepable (now : Z) (v : item) : bool :=
  (0 <? expiration v) && (expiration v <? now).

(** Lines 31-37: ranging over the map and deleting during the iteration
    removes exactly the entries that pass the test. *)
Definition sweep (now : Z) (m : gmap string item) : gmap string item :=
  filter (fun kv => sweepable now kv.2 = false) m.

(** Line 28 of [janitor.run], for the goroutine sweeping [c]. *)
Definition janitor_run_now (c : loc) : Go unit :=
  w <- get_world ;;
  match goroutines w !! c with
  | Some AtLoopTop =>
      t <- time_Now ;;
      modify (set_goroutines (insert c (AtSelect (Time_UnixNano t))))
  | _ => ret tt
  end.

(** Lines 30-38 of [janitor.run]: the ticker fires and the goroutine, if it
    is waiting in the [select], sweeps with its local [now] and goes back to
    the top of the loop. *)
Definition janitor_run_tick (c : loc) : Go unit :=
  w <- get_world ;;
  match goroutines w !! c with
  | Some (AtSelect now) =>
      ch <- load c ;;
      store c (set_items (sweep now) ch) ;;;
      modify (set_goroutines (insert c AtLoopTop))
  | _ => ret tt
  end.

(** Lines 41-49. *)
Definition newJanitor (d : Z) : janitor :=
  let d := if d <=? 0 then defultInterval else d in
  Janitor d.

(** ** The entry store (lines 58-96) *)

(** [time.NewTicker(d)] (line 26) panics when [d <= 0]. *)
Definition time_NewTicker (d : Z) : Go unit :=
  if d <=? 0 then panic else ret tt.

(** [go c.janitor.run(c)] (line 63).  The new goroutine begins with
    [ticker := time.NewTicker(this.interval)] (line 26), where a panic
    ends the whole program, and then stands at the top of its loop; this
    first step is taken as the goroutine is started. *)
Definition go_janitor_run (c : loc) : Go unit :=
  ch <- load c ;;
  time_NewTicker (interval (cache_janitor ch)) ;;;
  modify (set_goroutines (insert c AtLoopTop)).

(** Lines 58-70: allocate the [Cache], start its janitor goroutine
    ([go c.janitor.run(c)], line 63), then record the expiration. *)
Definition newCache (expiration interval : Z) : Go loc :=
  w <- get_world ;;
  let c := fresh (dom (heap w)) in
  store c (MkCache ∅ (newJanitor interval) 0) ;;;
  go_janitor_run c ;;;
  (if expiration <=? 0 then
     ch <- load c ;; store c (set_cache_expiration 0 ch)
   else
     t <- time_Now ;;
     ch <- load c ;;
     store c (set_cache_expiration (Time_UnixNano (Time_Add t expiration)) ch)) ;;;
  ret c.

(** [Cache.getValue], lines 72-84. *)
Definition Cache_getValue (this : loc) (key : string) : Go (iface * bool) :=
  t <- time_Now ;;
  let now := Time_UnixNano t in
  ch <- load this ;;
  match items ch !! key with
  | Some v =>
      if (0 <? expiration v) && (expiration v <? now)
      then ret (Nil, false)
      else ret (object v, true)
  | None => ret (Nil, false)
  end.

(** [Cache.setValue], lines 86-96. *)
Definition Cache_setValue (this : loc) (key : string) (value : iface)
    (expiration : Z) : Go unit :=
  e <- (if 0 <? expiration then
          t <- time_Now ;; ret (Time_UnixNano (Time_Add t expiration))
        else ret 0) ;;
  ch <- load this ;;
  store this (set_items (insert key (Item value e)) ch).

(** ** The shard router (lines 105-190) *)

Definition NewCacheGroup (expiration : Z) : Go unit :=
  t <- time_Now ;;
  modify (set_group (fun _ =>
    MkCacheGroup ∅ (Time_UnixNano (Time_Add t expiration)) defultKeyLen)).

(** The body of [getSplitKey] (lines 186-189) for [keyLen = n].  [len(key)]
    counts bytes and [key[:n]] is the first [n] bytes of [key] when
    [0 <= n <= len(key)]; slicing with a negative [n] panics. *)
Definition splitKey (n : Z) (key : string) : option string :=
  if Z.of_nat (String.length key) <=? n then Some key
  else if n <? 0 then None
  else Some (substring 0 (Z.to_nat n) key).

Definition lift {A} (o : option A) : Go A :=
  fun w => match o with
           | Some a => Some (a, w)
           | None => None
           end.

Definition getSplitKey (key : string) : Go string :=
  w <- get_world ;;
  lift (splitKey (keyLen (group w)) key).

Definition addCache (key : string) (expiration interval : Z) : Go unit :=
  key <- getSplitKey key ;;
  w <- get_world ;;
  match caches (group w) !! key with
  | Some _ => ret tt
  | None =>
      c <- newCache expiration interval ;;
      modify (set_group (set_caches (insert key c)))
  end.

Definition addDefultCache (key : string) : Go loc :=
  key <- getSplitKey key ;;
  w <- get_world ;;
  match caches (group w) !! key with
  | Some v => ret v
  | None =>
      c <- newCache defultExpiration defultInterval ;;
      modify (set_group (set_caches (insert key c))) ;;;
      ret c
  end.

(** Lines 138-144.  The pair [(v, ok)] is [Some v] when [ok] and [None]
    (the nil pointer, [ok = false]) otherwise. *)
Definition getCache (key : string) : Go (option loc) :=
  key <- getSplitKey key ;;
  w <- get_world ;;
  ret (caches (group w) !! key).

Definition GetValue (key : string) : Go (iface * bool) :=
  r <- getCache key ;;
  match r with
  | Some c => Cache_getValue c key
  | None => ret (Nil, false)
  end.

Definition GetString (key : string) : Go (string * error) :=
  r <- GetValue key ;;
  let '(v, ok) := r in
  if ok then
    let '(sv, ok) := assert_string v in
    if ok then ret (sv, nil_error)
    else ret (EmptyString, err_not_string)
  else ret (EmptyString, err_key_not_found).

Definition SetValue (key : string) (value : iface) (expiration : Z) : Go unit :=
  r <- getCache key ;;
  c <- match r with
       | Some c => ret c
       | None => addDefultCache key
       end ;;
  Cache_setValue c key value expiration.

Definition deleteCache (key : string) : Go error :=
  key <- getSplitKey key ;;
  w <- get_world ;;
  match caches (group w) !! key with
  | None => ret err_key_not_exist
  | Some _ =>
      modify (set_group (set_caches (delete key))) ;;;
      ret nil_error
  end.

(** ** Schedules

    A run of the program is a sequence of calls on the group, interleaved
    with the passage of time and with steps of the janitor goroutines. *)

Inductive op : Type :=
| OpAddCache (key : string) (expiration interval : Z)
| OpGetValue (key : string)
| OpGetString (key : string)
| OpSetValue (key : string) (value : iface) (expiration : Z)
| OpDeleteCache (key : string)
| OpWait (d : N)
| OpJanitorNow (c : loc)
| OpJanitorTick (c : loc).

Inductive result : Type :=
| RUnit
| RValue (v : iface) (ok : bool)
| RString (s : string) (e : error)
| RError (e : error).

(** Time passes.  The model has no step that sets the wall clock back;
    the statements that need a janitor's reading to be behind the clock say
    so in a hypothesis. *)
Definition wait (d : N) : Go unit :=
  modify (fun w => set_clock (clock w + Z.of_N d) w).

Definition exec (o : op) : Go result :=
  match o with
  | OpAddCache key e i => addCache key e i ;;; ret RUnit
  | OpGetValue key => r <- GetValue key ;; ret (RValue r.1 r.2)
  | OpGetString key => r <- GetString key ;; ret (RString r.1 r.2)
  | OpSetValue key v e => SetValue key v e ;;; ret RUnit
  | OpDeleteCache key => e <- deleteCache key ;; ret (RError e)
  | OpWait d => wait d ;;; ret RUnit
  | OpJanitorNow c => janitor_run_now c ;;; ret RUnit
  | OpJanitorTick c => janitor_run_tick c ;;; ret RUnit
  end.

Fixpoint run (ops : list op) : Go (list result) :=
  match ops with
  | [] => ret []
  | o :: ops => r <- exec o ;; rs <- run ops ;; ret (r :: rs)
  end.

(** The world at instant [t0], before [NewCacheGroup] has run. *)
Definition boot (t0 : Z) : World :=
  MkWorld t0 ∅ ∅ (MkCacheGroup ∅ 0 0).


(** ** Auxiliary definitions for the statements *)

(** What [Cache.getValue] returns, given the reading [now] of the clock and
    the outcome of the map lookup. *)
Definition visible (now : Z) (o : option item) : iface * bool :=
  match o with
  | Some v => if sweepable now v then (Nil, false) else (object v, true)
  | None => (Nil, false)
  end.

(** The expiration stamp computed by [Cache.setValue] (lines 91-93). *)
Definition stamp (t ttl : Z) : Z :=
  if 0 <? ttl then Time_UnixNano (Time_Add t ttl) else 0.

(** The [Cache] object built by [newCache] at instant [t]. *)
Definition fresh_cache (t expiration interval : Z) : Cache :=
  MkCache ∅ (newJanitor interval)
    (if expiration <=? 0 then 0 else Time_UnixNano (Time_Add t expiration)).

(** The world after [newCache]: one more object, one more goroutine. *)
Definition alloc_cache (l : loc) (c : Cache) (w : World) : World :=
  set_goroutines (insert l AtLoopTop) (set_heap (insert l c) w).

(** Well-formed worlds.

    The prefix length is not negative, and every pointer held by the
    directory or by a janitor goroutine points to an allocated [Cache]. *)

Definition wf (w : World) : Prop :=
  0 <= keyLen (group w) /\
  (forall p l, caches (group w) !! p = Some l -> is_Some (heap w !! l)) /\
  (forall l pc, goroutines w !! l = Some pc -> is_Some (heap w !! l)).

(** A whole run: the program starts at instant [t0], builds the group with
    [NewCacheGroup expiration] and follows the schedule [ops]. *)
Definition program (t0 expiration : Z) (ops : list op) : option (list result * World) :=
  (NewCacheGroup expiration ;;; run ops) (boot t0).

(** The entry stored under [k] in the map of the [Cache] at [l]. *)
Definition entry (l : loc) (k : string) (w : World) : option item :=
  match heap w !! l with
  | Some c => items c !! k
  | None => None
  end.

(** Steps of a schedule that neither overwrite the entry of key [k] nor
    delete the shard of [k], for prefix length [n]. *)
Definition keeps (n : Z) (k : string) (o : op) : Prop :=
  match o with
  | OpSetValue k' _ _ => k' <> k
  | OpDeleteCache k' => splitKey n k' <> splitKey n k
  | _ => True
  end.

(** The local [now] of a janitor is a reading of the clock made no later
    than the current instant: this holds in every world the program
    reaches while the clock stays within [int64]. *)
Definition janitors_behind (w : World) : Prop :=
  int64_min <= clock w /\
  forall l now, goroutines w !! l = Some (AtSelect now) ->
    clock w <= int64_max -> now <= Time_UnixNano (clock w).

(** Erasure of the expiration recorded in a [Cache] and in the group, and
    of the expiration argument of an explicit shard creation. *)
Definition erase_cache (c : Cache) : Cache := set_cache_expiration 0 c.

Definition erase (w : World) : World :=
  MkWorld (clock w) (erase_cache <$> heap w) (goroutines w)
    (MkCacheGroup (caches (group w)) 0 (keyLen (group w))).

Definition erase_op (o : op) : op :=
  match o with
  | OpAddCache key _ i => OpAddCache key 0 i
  | _ => o
  end.

(** An outcome, with the recorded expirations of its world erased. *)
Definition erased {A} (r : option (A * World)) : option (A * World) :=
  (fun aw => (aw.1, erase aw.2)) <$> r.

(** Two calls that differ at most in the expiration given to [addCache]. *)
Inductive same_call : op -> op -> Prop :=
| same_addCache (key : string) (e1 e2 i : Z) :
    same_call (OpAddCache key e1 i) (OpAddCache key e2 i)
| same_other (o : op) : same_call o o.

(** ** The shard identifier in the words of the spec

    The spec takes "the first shardKeyPrefixLength characters of the key,
    or the whole key if shorter".  A key is read as UTF-8 text: a byte
    [10xxxxxx] continues the character begun before it, every other byte
    begins a character. *)

Definition spec_is_continuation (a : ascii) : bool :=
  ((128 <=? nat_of_ascii a) && (nat_of_ascii a <? 192))%nat.

Fixpoint spec_char_count (s : string) : nat :=
  match s with
  | EmptyString => 0%nat
  | String a s' =>
      if spec_is_continuation a then spec_char_count s'
      else S (spec_char_count s')
  end.

(** The first [n] characters of [s]. *)
Fixpoint spec_take_chars (n : nat) (s : string) : string :=
  match s with
  | EmptyString => EmptyString
  | String a s' =>
      if spec_is_continuation a then String a (spec_take_chars n s')
      else match n with
           | O => EmptyString
           | S n' => String a (spec_take_chars n' s')
           end
  end.

Definition spec_shard_id (n : Z) (key : string) : string :=
  if Z.of_nat (spec_char_count key) <=? n then key
  else spec_take_chars (Z.to_nat n) key.

(** Keys made of ASCII bytes only: one byte per character. *)
Fixpoint ascii_only (s : string) : bool :=
  match s with
  | EmptyString => true
  | String a s' => (nat_of_ascii a <? 128)%nat && ascii_only s'
  end.

(** ** Invariants of the reachable worlds *)

(** No two identifiers of the directory share a [Cache]. *)
Definition dir_injective (w : World) : Prop :=
  forall p1 p2 l,
    caches (group w) !! p1 = Some l -> caches (group w) !! p2 = Some l -> p1 = p2.

(** Every entry of a shard of the directory has the identifier of that
    shard. *)
Definition entries_routed (w : World) : Prop :=
  forall p l k it,
    caches (group w) !! p = Some l -> entry l k w = Some it ->
    splitKey (keyLen (group w)) k = Some p.

(** Every allocated [Cache] has its janitor goroutine, with a positive
    interval. *)
Definition janitors_alive (w : World) : Prop :=
  forall l c, heap w !! l = Some c ->
    is_Some (goroutines w !! l) /\ 0 < interval (cache_janitor c).

Definition sound (w : World) : Prop :=
  wf w /\ keyLen (group w) = defultKeyLen /\
  dir_injective w /\ entries_routed w /\ janitors_alive w.

(** [w'] still has every [Cache] of [w], with the janitor settings and the
    expiration it had, and every janitor goroutine of [w]. *)
Definition extends (w w' : World) : Prop :=
  (forall l c, heap w !! l = Some c ->
     exists c', heap w' !! l = Some c' /\
                cache_janitor c' = cache_janitor c /\
                cache_expiration c' = cache_expiration c) /\
  (forall l, is_Some (goroutines w !! l) -> is_Some (goroutines w' !! l)).

(** A world with one shard, used to instantiate the statements. *)
Definition demo_world : World :=
  MkWorld 1000
    {[1%positive := MkCache {["abcS" := Item (StringVal "hello") 0;
                              "abcT" := Item (IntVal 5) 900]}
                      (Janitor defultInterval) 0]}
    {[1%positive := AtSelect 950]}
    (MkCacheGroup {["abc" := 1%positive]} 0 3).

(** * Properties *)

(** ** Arithmetic of [int64] *)

Lemma wrap64_id (z : Z) : in_int64 z -> wrap64 z = z.
Proof.
  unfold in_int64, int64_min, int64_max, wrap64. intros H.
  rewrite Z.mod_small; lia.
Qed.


(** ** Shard identifiers *)

Lemma substring_prefix (n : nat) (s : string) :
  (n <= String.length s)%nat ->
  exists rest, s = (substring 0 n s ++ rest)%string /\
               String.length (substring 0 n s) = n.
Proof.
  revert s. induction n as [|n IH]; intros s Hn.
  - exists s. destruct s; simpl; auto.
  - destruct s as [|a s]; simpl in *; [lia|].
    destruct (IH s) as (rest & Hs & Hl); [lia|].
    exists rest. split; [|by f_equal].
    change (String a s = String a (substring 0 n s +:+ rest)). by f_equal.
Qed.

Lemma splitKey_total (n : Z) (key : string) :
  0 <= n -> is_Some (splitKey n key).
Proof.
  intros Hn. unfold splitKey.
  destruct (Z.leb_spec (Z.of_nat (String.length key)) n); [by eexists|].
  destruct (Z.ltb_spec n 0); [lia|by eexists].
Qed.

Lemma splitKey_prefix (n : Z) (key p : string) :
  splitKey n key = Some p ->
  (exists rest, key = (p ++ rest)%string) /\
  Z.of_nat (String.length p) = Z.min (Z.of_nat (String.length key)) n.
Proof.
  unfold splitKey.
  destruct (Z.leb_spec (Z.of_nat (String.length key)) n) as [Hle|Hgt].
  - intros [= <-]. split; [|lia].
    exists EmptyString. clear Hle. induction key as [|a key IH]; [done|].
    change (String a key = String a (key +:+ EmptyString)). by f_equal.
  - destruct (Z.ltb_spec n 0) as [|Hn]; [done|]. intros [= <-].
    destruct (substring_prefix (Z.to_nat n) key) as (rest & Hs & Hl); [lia|].
    split; [by exists rest|]. rewrite Hl. lia.
Qed.

(** ** Equations of the operations *)

Ltac go_unfold :=
  unfold bind, ret, lift, get_world, modify, time_Now, load, store, panic.

Lemma getSplitKey_eq (w : World) (key : string) :
  getSplitKey key w =
  match splitKey (keyLen (group w)) key with
  | Some p => Some (p, w)
  | None => None
  end.
Proof. reflexivity. Qed.

Lemma getCache_eq (w : World) (key p : string) :
  splitKey (keyLen (group w)) key = Some p ->
  getCache key w = Some (caches (group w) !! p, w).
Proof.
  intros Hp. unfold getCache. go_unfold. fold (getSplitKey key w).
  unfold getSplitKey. go_unfold. by rewrite Hp.
Qed.

Lemma Cache_getValue_eq (w : World) (l : loc) (c : Cache) (key : string) :
  heap w !! l = Some c ->
  Cache_getValue l key w =
  Some (visible (Time_UnixNano (clock w)) (items c !! key), w).
Proof.
  intros Hl. unfold Cache_getValue. go_unfold. rewrite Hl.
  unfold visible, sweepable. destruct (items c !! key) as [v|]; [|done].
  by destruct (_ && _).
Qed.

Lemma Cache_setValue_eq (w : World) (l : loc) (c : Cache) (key : string)
    (v : iface) (ttl : Z) :
  heap w !! l = Some c ->
  Cache_setValue l key v ttl w =
  Some (tt, set_heap (insert l (set_items (insert key (Item v (stamp (clock w) ttl))) c)) w).
Proof.
  intros Hl. unfold Cache_setValue, stamp. go_unfold.
  destruct (0 <? ttl); simpl; by rewrite Hl.
Qed.

Lemma newCache_eq (w : World) (e i : Z) :
  newCache e i w =
  Some (fresh (dom (heap w)),
        alloc_cache (fresh (dom (heap w))) (fresh_cache (clock w) e i) w).
Proof.
  assert ((interval (newJanitor i) <=? 0) = false) as Hi.
  { apply Z.leb_gt. simpl. unfold defultInterval, time_Second.
    destruct (Z.leb_spec i 0); lia. }
  simpl in Hi.
  unfold newCache, go_janitor_run, time_NewTicker, fresh_cache, alloc_cache.
  go_unfold. simpl. rewrite lookup_insert_eq. simpl. rewrite Hi.
  destruct (e <=? 0); simpl; rewrite lookup_insert_eq; simpl;
    unfold set_goroutines, set_heap; simpl; by rewrite insert_insert_eq.
Qed.

Lemma fresh_loc_None (w : World) : heap w !! fresh (dom (heap w)) = None.
Proof. apply not_elem_of_dom, is_fresh. Qed.

Lemma addDefultCache_eq (w : World) (key p : string) :
  splitKey (keyLen (group w)) key = Some p ->
  addDefultCache key w =
  match caches (group w) !! p with
  | Some l => Some (l, w)
  | None =>
      let l := fresh (dom (heap w)) in
      Some (l, set_group (set_caches (insert p l))
                 (alloc_cache l (fresh_cache (clock w) defultExpiration defultInterval) w))
  end.
Proof.
  intros Hp. unfold addDefultCache.
  unfold bind at 1. rewrite getSplitKey_eq, Hp.
  unfold bind at 1. unfold get_world.
  destruct (caches (group w) !! p); [done|].
  unfold bind at 1. by rewrite newCache_eq.
Qed.

Lemma addCache_eq (w : World) (key p : string) (e i : Z) :
  splitKey (keyLen (group w)) key = Some p ->
  addCache key e i w =
  match caches (group w) !! p with
  | Some _ => Some (tt, w)
  | None =>
      let l := fresh (dom (heap w)) in
      Some (tt, set_group (set_caches (insert p l))
                  (alloc_cache l (fresh_cache (clock w) e i) w))
  end.
Proof.
  intros Hp. unfold addCache.
  unfold bind at 1. rewrite getSplitKey_eq, Hp.
  unfold bind at 1. unfold get_world.
  destruct (caches (group w) !! p); [done|].
  unfold bind at 1. by rewrite newCache_eq.
Qed.

Lemma GetValue_eq (w : World) (key p : string) :
  splitKey (keyLen (group w)) key = Some p ->
  GetValue key w =
  match caches (group w) !! p with
  | Some l => Cache_getValue l key w
  | None => Some ((Nil, false), w)
  end.
Proof.
  intros Hp. unfold GetValue. unfold bind at 1. rewrite (getCache_eq _ _ _ Hp).
  by destruct (caches (group w) !! p).
Qed.

Lemma GetString_eq (w : World) (key : string) :
  GetString key w =
  match GetValue key w with
  | Some ((v, true), w') =>
      match v with
      | StringVal s => Some ((s, nil_error), w')
      | _ => Some ((EmptyString, err_not_string), w')
      end
  | Some ((_, false), w') => Some ((EmptyString, err_key_not_found), w')
  | None => None
  end.
Proof.
  unfold GetString. unfold bind at 1.
  destruct (GetValue key w) as [[[v [|]] w']|]; simpl; try done.
  unfold assert_string. by destruct v.
Qed.

Lemma SetValue_eq (w : World) (key p : string) (v : iface) (ttl : Z) :
  splitKey (keyLen (group w)) key = Some p ->
  SetValue key v ttl w =
  match caches (group w) !! p with
  | Some l => Cache_setValue l key v ttl w
  | None =>
      let l := fresh (dom (heap w)) in
      Cache_setValue l key v ttl
        (set_group (set_caches (insert p l))
           (alloc_cache l (fresh_cache (clock w) defultExpiration defultInterval) w))
  end.
Proof.
  intros Hp. unfold SetValue. unfold bind at 1. rewrite (getCache_eq _ _ _ Hp).
  unfold bind at 1.
  destruct (caches (group w) !! p) as [l|] eqn:Hl; [done|].
  by rewrite (addDefultCache_eq _ _ _ Hp), Hl.
Qed.

Lemma deleteCache_eq (w : World) (key p : string) :
  splitKey (keyLen (group w)) key = Some p ->
  deleteCache key w =
  match caches (group w) !! p with
  | Some _ => Some (nil_error, set_group (set_caches (delete p)) w)
  | None => Some (err_key_not_exist, w)
  end.
Proof.
  intros Hp. unfold deleteCache.
  unfold bind at 1. rewrite getSplitKey_eq, Hp.
  unfold bind at 1. unfold get_world.
  by destruct (caches (group w) !! p).
Qed.

Lemma janitor_run_now_eq (w : World) (l : loc) :
  janitor_run_now l w =
  match goroutines w !! l with
  | Some AtLoopTop =>
      Some (tt, set_goroutines (insert l (AtSelect (Time_UnixNano (clock w)))) w)
  | _ => Some (tt, w)
  end.
Proof.
  unfold janitor_run_now. go_unfold.
  by destruct (goroutines w !! l) as [[|]|].
Qed.

Lemma janitor_run_tick_eq (w : World) (l : loc) :
  janitor_run_tick l w =
  match goroutines w !! l with
  | Some (AtSelect now) =>
      match heap w !! l with
      | Some c =>
          Some (tt, set_goroutines (insert l AtLoopTop)
                      (set_heap (insert l (set_items (sweep now) c)) w))
      | None => None
      end
  | _ => Some (tt, w)
  end.
Proof.
  unfold janitor_run_tick. go_unfold.
  destruct (goroutines w !! l) as [[|now]|]; try done.
  by destruct (heap w !! l).
Qed.

(** The sweep keeps an entry exactly when it fails the test of line 33. *)
Lemma lookup_sweep (now : Z) (m : gmap string item) (k : string) :
  sweep now m !! k =
  match m !! k with
  | Some v => if sweepable now v then None else Some v
  | None => None
  end.
Proof.
  unfold sweep. destruct (m !! k) as [v|] eqn:Hk.
  - destruct (sweepable now v) eqn:Hs.
    + apply map_lookup_filter_None. right. intros v' Hv'. simpl.
      rewrite Hk in Hv'. injection Hv' as <-. by rewrite Hs.
    + apply map_lookup_filter_Some. by split.
  - apply map_lookup_filter_None. by left.
Qed.

(** ** Well-formed worlds *)

Lemma wf_splitKey (w : World) (key : string) :
  wf w -> exists p, splitKey (keyLen (group w)) key = Some p.
Proof. intros [Hn _]. by apply splitKey_total. Qed.

Lemma start_eq (t0 e : Z) :
  NewCacheGroup e (boot t0) =
  Some (tt, MkWorld t0 ∅ ∅ (MkCacheGroup ∅ (Time_UnixNano (Time_Add t0 e)) defultKeyLen)).
Proof. reflexivity. Qed.

Lemma start_wf (t0 e : Z) (w : World) :
  NewCacheGroup e (boot t0) = Some (tt, w) -> wf w.
Proof.
  rewrite start_eq. intros [= <-]. repeat split; simpl.
  - unfold defultKeyLen. lia.
  - intros p l. by rewrite lookup_empty.
  - intros l pc. by rewrite lookup_empty.
Qed.

Lemma wf_alloc (w : World) (p : string) (c : Cache) :
  wf w ->
  wf (set_group (set_caches (insert p (fresh (dom (heap w)))))
        (alloc_cache (fresh (dom (heap w))) c w)).
Proof.
  intros (Hn & Hd & Hg). repeat split; simpl; [done| |].
  - intros p' l'. rewrite lookup_insert. case_decide as Hp.
    + intros [= <-]. rewrite lookup_insert_eq. by eexists.
    + intros Hl. rewrite lookup_insert_ne; [by eapply Hd|].
      intros <-. apply Hd in Hl. rewrite fresh_loc_None in Hl. by destruct Hl.
  - intros l' pc. rewrite lookup_insert. case_decide as Hl.
    + subst l'. rewrite lookup_insert_eq. by eexists.
    + intros Hpc. rewrite lookup_insert_ne; [by eapply Hg|done].
Qed.

Lemma wf_store (w : World) (l : loc) (c : Cache) :
  wf w -> wf (set_heap (insert l c) w).
Proof.
  intros (Hn & Hd & Hg). repeat split; simpl; [done| |].
  - intros p' l' Hl'. rewrite lookup_insert. case_decide; [by eexists|by eapply Hd].
  - intros l' pc Hl'. rewrite lookup_insert. case_decide; [by eexists|by eapply Hg].
Qed.

(** Every step of a schedule runs to completion in a well-formed world,
    and leaves it well-formed with the same prefix length. *)
Lemma exec_wf (o : op) (w : World) :
  wf w ->
  exists r w', exec o w = Some (r, w') /\ wf w' /\
               keyLen (group w') = keyLen (group w).
Proof.
  intros Hwf. pose proof Hwf as (Hn & Hd & Hg).
  destruct o as [key e i|key|key|key v ttl|key|d|l|l]; simpl; unfold bind at 1.
  - destruct (wf_splitKey w key Hwf) as [p Hp]. rewrite (addCache_eq _ _ _ _ _ Hp).
    destruct (caches (group w) !! p) as [l|] eqn:Hl; simpl.
    + by eexists _, _.
    + eexists _, _. split; [done|]. split; [by apply wf_alloc|done].
  - destruct (wf_splitKey w key Hwf) as [p Hp]. rewrite (GetValue_eq _ _ _ Hp).
    destruct (caches (group w) !! p) as [l|] eqn:Hl; simpl.
    + destruct (Hd _ _ Hl) as [c Hc]. rewrite (Cache_getValue_eq _ _ _ _ Hc).
      by eexists _, _.
    + by eexists _, _.
  - rewrite GetString_eq.
    destruct (wf_splitKey w key Hwf) as [p Hp]. rewrite (GetValue_eq _ _ _ Hp).
    assert (exists r, match caches (group w) !! p with
                      | Some l => Cache_getValue l key w
                      | None => Some (Nil, false, w)
                      end = Some (r, w)) as [[v ok] ->].
    { destruct (caches (group w) !! p) as [l|] eqn:Hl; [|by eexists].
      destruct (Hd _ _ Hl) as [c Hc]. rewrite (Cache_getValue_eq _ _ _ _ Hc).
      by eexists. }
    destruct ok; [destruct v|]; by eexists _, _.
  - destruct (wf_splitKey w key Hwf) as [p Hp]. rewrite (SetValue_eq _ _ _ _ _ Hp).
    destruct (caches (group w) !! p) as [l|] eqn:Hl; simpl.
    + destruct (Hd _ _ Hl) as [c Hc]. rewrite (Cache_setValue_eq _ _ _ _ _ _ Hc).
      eexists _, _. split; [done|]. split; [by apply wf_store|done].
    + erewrite Cache_setValue_eq; [|simpl; apply lookup_insert_eq].
      eexists _, _. split; [done|]. split; [|done].
      by apply wf_store, wf_alloc.
  - destruct (wf_splitKey w key Hwf) as [p Hp]. rewrite (deleteCache_eq _ _ _ Hp).
    destruct (caches (group w) !! p) as [l|] eqn:Hl; simpl.
    + eexists _, _. split; [done|]. split; [|done].
      repeat split; simpl; [done| |done].
      intros p' l'. rewrite lookup_delete. case_decide; [done|apply Hd].
    + by eexists _, _.
  - eexists _, _. by split.
  - rewrite janitor_run_now_eq.
    destruct (goroutines w !! l) as [[|now]|] eqn:Hl; simpl; try by eexists _, _.
    eexists _, _. split; [done|]. split; [|done].
    repeat split; simpl; [done|done|].
    intros l' pc. rewrite lookup_insert. case_decide; [|apply Hg].
    subst l'. intros _. by eapply Hg.
  - rewrite janitor_run_tick_eq.
    destruct (goroutines w !! l) as [[|now]|] eqn:Hl; simpl; try by eexists _, _.
    destruct (Hg _ _ Hl) as [c Hc]. rewrite Hc. simpl.
    eexists _, _. split; [done|]. split; [|done].
    repeat split; simpl; [done| |].
    + intros p' l' Hl'. rewrite lookup_insert. case_decide; [by eexists|by eapply Hd].
    + intros l' pc. rewrite !lookup_insert. case_decide; [by eexists|apply Hg].
Qed.

Lemma run_wf (ops : list op) (w : World) :
  wf w ->
  exists rs w', run ops w = Some (rs, w') /\ wf w' /\
                keyLen (group w') = keyLen (group w).
Proof.
  revert w. induction ops as [|o ops IH]; intros w Hwf; simpl.
  - by eexists _, _.
  - destruct (exec_wf o w Hwf) as (r & w1 & Hr & Hwf1 & Hk1).
    destruct (IH w1 Hwf1) as (rs & w2 & Hrs & Hwf2 & Hk2).
    exists (r :: rs), w2. unfold bind. rewrite Hr, Hrs.
    split; [done|]. split; [done|congruence].
Qed.

Lemma program_eq (t0 e : Z) (ops : list op) :
  program t0 e ops =
  run ops (MkWorld t0 ∅ ∅ (MkCacheGroup ∅ (Time_UnixNano (Time_Add t0 e)) defultKeyLen)).
Proof. reflexivity. Qed.

(** ** Entry store: visibility of an entry *)






Lemma Cache_getValue_frame (w w' : World) (l : loc) (k : string) (r : iface * bool) :
  Cache_getValue l k w = Some (r, w') -> w' = w.
Proof.
  unfold Cache_getValue. go_unfold.
  destruct (heap w !! l) as [c|]; [|done].
  destruct (items c !! k) as [v|]; [destruct (_ && _)|]; congruence.
Qed.

Lemma GetValue_frame (w w' : World) (k : string) (r : iface * bool) :
  GetValue k w = Some (r, w') -> w' = w.
Proof.
  unfold GetValue, getCache, getSplitKey. go_unfold.
  destruct (splitKey _ _) as [p|]; [|done].
  destruct (caches (group w) !! p) as [l|]; [|congruence].
  apply Cache_getValue_frame.
Qed.

Lemma GetString_frame (w w' : World) (k : string) (r : string * error) :
  GetString k w = Some (r, w') -> w' = w.
Proof.
  rewrite GetString_eq.
  destruct (GetValue k w) as [[[v ok] w1]|] eqn:Hg; [|done].
  apply GetValue_frame in Hg. subst w1.
  destruct ok; [destruct v|]; congruence.
Qed.

(** C4.  [getValue] changes nothing: neither the shard-level read nor the
    router-level [GetValue] and [GetString] modify the world.  In
    particular a read that finds an entry whose expiration is set and in
    the past answers [(nil, false)] and leaves the entry in the map. *)
Theorem C4_get_is_read_only (w : World) (l : loc) (k : string) :
  (forall r w', Cache_getValue l k w = Some (r, w') -> w' = w) /\
  (forall r w', GetValue k w = Some (r, w') -> w' = w) /\
  (forall r w', GetString k w = Some (r, w') -> w' = w) /\
  (forall it, entry l k w = Some it ->
     0 < expiration it < Time_UnixNano (clock w) ->
     exists w', Cache_getValue l k w = Some ((Nil, false), w') /\
                entry l k w' = Some it /\ heap w' = heap w).
Proof.
  split; [intros r w'; apply Cache_getValue_frame|].
  split; [intros r w'; apply GetValue_frame|].
  split; [intros r w'; apply GetString_frame|].
  intros it Hit Hexp. exists w. unfold entry in Hit.
  destruct (heap w !! l) as [c|] eqn:Hl; [|done].
  rewrite (Cache_getValue_eq _ _ _ _ Hl), Hit. unfold visible, sweepable.
  destruct (Z.ltb_spec 0 (expiration it)); [|lia].
  destruct (Z.ltb_spec (expiration it) (Time_UnixNano (clock w))); [|lia].
  split; [done|]. split; [|done]. unfold entry. by rewrite Hl.
Qed.

Lemma C4_get_is_read_only_witness :
  let it := Item (IntVal 7) 10 in
  let w := MkWorld 1000 {[1%positive := MkCache {["k" := it]} (Janitor defultInterval) 0]}
             {[1%positive := AtLoopTop]} (MkCacheGroup {["k" := 1%positive]} 0 3) in
  (Cache_getValue 1%positive "k" w = Some ((Nil, false), w) /\
   GetValue "k" w = Some ((Nil, false), w) /\
   GetString "k" w = Some ((EmptyString, err_key_not_found), w) /\
   entry 1%positive "k" w = Some it /\
   0 < expiration it < Time_UnixNano (clock w)) /\
  (w = w /\ w = w /\ w = w) /\
  exists w', Cache_getValue 1%positive "k" w = Some ((Nil, false), w') /\
             entry 1%positive "k" w' = Some it /\ heap w' = heap w.
Proof.
  intros it w.
  assert (Cache_getValue 1%positive "k" w = Some ((Nil, false), w)) as E1
    by (vm_compute; reflexivity).
  assert (GetValue "k" w = Some ((Nil, false), w)) as E2
    by (vm_compute; reflexivity).
  assert (GetString "k" w = Some ((EmptyString, err_key_not_found), w)) as E3
    by (vm_compute; reflexivity).
  assert (entry 1%positive "k" w = Some it) as E4 by (vm_compute; reflexivity).
  assert (0 < expiration it < Time_UnixNano (clock w)) as E5
    by (split; vm_compute; reflexivity).
  destruct (C4_get_is_read_only w 1%positive "k") as (H1 & H2 & H3 & H4).
  split; [by repeat split|].
  split; [exact (conj (H1 _ _ E1) (conj (H2 _ _ E2) (H3 _ _ E3)))|].
  exact (H4 it E4 E5).
Defined.

(** ** The sweeper *)

(** What one tick does to the swept shard: the entries that fail the test
    of line 33 against the janitor's local [now] stay, the others go. *)
Lemma janitor_run_tick_entry (w : World) (l : loc) (now : Z) (k : string) :
  goroutines w !! l = Some (AtSelect now) ->
  is_Some (heap w !! l) ->
  exists w', janitor_run_tick l w = Some (tt, w') /\
    entry l k w' =
      match entry l k w with
      | Some v => if sweepable now v then None else Some v
      | None => None
      end.
Proof.
  intros Hg [c Hc]. rewrite janitor_run_tick_eq, Hg, Hc. eexists. split; [done|].
  unfold entry. simpl. rewrite lookup_insert_eq, Hc. simpl. apply lookup_sweep.
Qed.

Lemma exec_janitors_behind (o : op) (w w' : World) (r : result) :
  janitors_behind w -> exec o w = Some (r, w') -> janitors_behind w'.
Proof.
  intros [Hmin Hj] He.
  assert (forall w1, clock w1 = clock w ->
            (forall l, goroutines w1 !! l = goroutines w !! l \/
                       goroutines w1 !! l = Some AtLoopTop \/
                       goroutines w1 !! l = Some (AtSelect (Time_UnixNano (clock w)))) ->
            janitors_behind w1) as Hsame.
  { intros w1 Hc Hg. split; [by rewrite Hc|]. intros l now Hl Hmax. rewrite Hc in *.
    destruct (Hg l) as [E|[E|E]]; rewrite E in Hl.
    - by eapply Hj.
    - done.
    - injection Hl as <-. lia. }
  destruct o as [key e i|key|key|key v ttl|key|d|l|l]; simpl in He;
    unfold bind at 1 in He.
  - destruct (addCache key e i w) as [[[] w1]|] eqn:E; [|done].
    injection He as _ <-.
    destruct (splitKey (keyLen (group w)) key) as [p|] eqn:Hp.
    + rewrite (addCache_eq _ _ _ _ _ Hp) in E.
      destruct (caches (group w) !! p); injection E as <-.
      * by apply Hsame; [|left].
      * apply Hsame; [done|]. intros l. simpl.
        rewrite lookup_insert. case_decide; auto.
    + unfold addCache in E. revert E.
      unfold bind. by rewrite getSplitKey_eq, Hp.
  - destruct (GetValue key w) as [[rv w1]|] eqn:E; [|done].
    injection He as _ <-. apply GetValue_frame in E. subst w1.
    by apply Hsame; [|left].
  - destruct (GetString key w) as [[rv w1]|] eqn:E; [|done].
    injection He as _ <-. apply GetString_frame in E. subst w1.
    by apply Hsame; [|left].
  - destruct (SetValue key v ttl w) as [[[] w1]|] eqn:E; [|done].
    injection He as _ <-.
    destruct (splitKey (keyLen (group w)) key) as [p|] eqn:Hp.
    + rewrite (SetValue_eq _ _ _ _ _ Hp) in E.
      destruct (caches (group w) !! p) as [l|].
      * unfold Cache_setValue in E. revert E. go_unfold.
        destruct (0 <? ttl); simpl; destruct (heap w !! l); try done;
          intros [= <-]; by apply Hsame; [|left].
      * simpl in E. erewrite Cache_setValue_eq in E; [|simpl; apply lookup_insert_eq].
        injection E as <-. apply Hsame; [done|]. intros l. simpl.
        rewrite lookup_insert. case_decide; auto.
    + unfold SetValue, getCache in E. revert E.
      unfold bind. by rewrite getSplitKey_eq, Hp.
  - destruct (deleteCache key w) as [[e w1]|] eqn:E; [|done].
    injection He as _ <-. unfold deleteCache in E. revert E.
    unfold bind at 1. rewrite getSplitKey_eq.
    destruct (splitKey _ _) as [p|]; [|done]. go_unfold.
    destruct (caches (group w) !! p); intros [= _ <-]; by apply Hsame; [|left].
  - injection He as _ <-. split; simpl; [lia|].
    intros l now Hl Hmax. unfold Time_UnixNano in *.
    rewrite wrap64_id by (unfold in_int64; lia).
    assert (clock w <= int64_max) as Hm by lia.
    specialize (Hj l now Hl Hm). rewrite wrap64_id in Hj by (unfold in_int64; lia). lia.
  - rewrite janitor_run_now_eq in He.
    destruct (goroutines w !! l) as [[|now]|] eqn:Hl; simpl in He;
      injection He as _ <-; try (by apply Hsame; [|left]).
    apply Hsame; [done|]. intros l'. simpl.
    rewrite lookup_insert. case_decide; auto.
  - rewrite janitor_run_tick_eq in He.
    destruct (goroutines w !! l) as [[|now]|] eqn:Hl; simpl in He;
      try (injection He as _ <-; by apply Hsame; [|left]).
    destruct (heap w !! l); [|done]. injection He as _ <-.
    apply Hsame; [done|]. intros l'. simpl.
    rewrite lookup_insert. case_decide; auto.
Qed.

Lemma run_janitors_behind (ops : list op) (w w' : World) (rs : list result) :
  janitors_behind w -> run ops w = Some (rs, w') -> janitors_behind w'.
Proof.
  revert w rs. induction ops as [|o ops IH]; intros w rs Hj; simpl.
  - by intros [= _ <-].
  - unfold bind. destruct (exec o w) as [[r w1]|] eqn:He; [|done].
    destruct (run ops w1) as [[rs1 w2]|] eqn:Hr; [|done].
    intros [= _ <-]. eapply IH; [|done]. by eapply exec_janitors_behind.
Qed.

Lemma program_janitors_behind (t0 e : Z) (ops : list op) (w : World)
    (rs : list result) :
  int64_min <= t0 -> program t0 e ops = Some (rs, w) -> janitors_behind w.
Proof.
  intros Ht0. rewrite program_eq. apply run_janitors_behind.
  split; [done|]. intros l now. simpl. by rewrite lookup_empty.
Qed.

(** C10.  Let [now] be the reading of the clock.  When [now] equals the
    expiration of an entry, [getValue] still returns its value with
    [true], and a sweep running at that instant (with a janitor whose own
    reading is not ahead of the clock) leaves it in the map.  [getValue]
    answers [false] for a stored entry, and a sweep removes it, only when
    [now] is strictly greater than its expiration. *)
Theorem C10_expiry_boundary (w : World) (l : loc) (k : string) (it : item) :
  entry l k w = Some it ->
  (Time_UnixNano (clock w) = expiration it ->
     Cache_getValue l k w = Some ((object it, true), w) /\
     forall jnow, goroutines w !! l = Some (AtSelect jnow) ->
       jnow <= Time_UnixNano (clock w) ->
       exists w', janitor_run_tick l w = Some (tt, w') /\ entry l k w' = Some it) /\
  (forall v w', Cache_getValue l k w = Some ((v, false), w') ->
     0 < expiration it < Time_UnixNano (clock w)) /\
  (forall jnow w', goroutines w !! l = Some (AtSelect jnow) ->
     jnow <= Time_UnixNano (clock w) ->
     janitor_run_tick l w = Some (tt, w') -> entry l k w' = None ->
     0 < expiration it < Time_UnixNano (clock w)).
Proof.
  intros Hit. pose proof Hit as Hit'. unfold entry in Hit'.
  destruct (heap w !! l) as [c|] eqn:Hc; [|done].
  split; [|split].
  - intros Hnow. split.
    + rewrite (Cache_getValue_eq _ _ _ _ Hc), Hit'. unfold visible, sweepable.
      rewrite Hnow, Z.ltb_irrefl, andb_false_r. done.
    + intros jnow Hg Hle.
      destruct (janitor_run_tick_entry w l jnow k Hg) as (w' & Hw' & He);
        [by rewrite Hc|].
      exists w'. split; [done|]. rewrite He, Hit. unfold sweepable.
      destruct (Z.ltb_spec (expiration it) jnow); [lia|].
      by rewrite andb_false_r.
  - intros v w'. rewrite (Cache_getValue_eq _ _ _ _ Hc), Hit'.
    unfold visible, sweepable.
    destruct (Z.ltb_spec 0 (expiration it));
      destruct (Z.ltb_spec (expiration it) (Time_UnixNano (clock w)));
      simpl; intros [= ]; lia.
  - intros jnow w' Hg Hle Hw' Hnone.
    destruct (janitor_run_tick_entry w l jnow k Hg) as (w2 & Hw2 & He);
      [by rewrite Hc|].
    rewrite Hw' in Hw2. injection Hw2 as <-. rewrite He, Hit in Hnone.
    unfold sweepable in Hnone.
    destruct (Z.ltb_spec 0 (expiration it));
      destruct (Z.ltb_spec (expiration it) jnow); simpl in Hnone; try done. lia.
Qed.

Lemma C10_expiry_boundary_witness :
  let it := Item (IntVal 7) 1000 in
  let w := MkWorld 1000 {[1%positive := MkCache {["k" := it]} (Janitor defultInterval) 0]}
             {[1%positive := AtSelect 1000]} (MkCacheGroup {["k" := 1%positive]} 0 3) in
  (entry 1%positive "k" w = Some it /\ Time_UnixNano (clock w) = expiration it /\
   goroutines w !! 1%positive = Some (AtSelect 1000)) /\
  Cache_getValue 1%positive "k" w = Some ((IntVal 7, true), w) /\
  exists w', janitor_run_tick 1%positive w = Some (tt, w') /\
             entry 1%positive "k" w' = Some it.
Proof.
  intros it w.
  assert (entry 1%positive "k" w = Some it) as E1 by (vm_compute; reflexivity).
  assert (Time_UnixNano (clock w) = expiration it) as E2 by (vm_compute; reflexivity).
  assert (goroutines w !! 1%positive = Some (AtSelect 1000)) as E3
    by (vm_compute; reflexivity).
  assert (1000 <= Time_UnixNano (clock w)) as E4 by (vm_compute; discriminate).
  destruct (C10_expiry_boundary w 1%positive "k" it E1) as (H1 & _ & _).
  destruct (H1 E2) as (G1 & G2).
  split; [by repeat split|]. split; [exact G1|]. exact (G2 1000 E3 E4).
Defined.

(** C2 (what the code does).  A shard is created at [t0] by a first
    [SetValue] of an entry with a [ttl] of one nanosecond, and its janitor
    reads the clock (line 28) before blocking on the ticker.  When the
    ticker fires one interval later, the sweep compares expirations with
    that earlier reading: the entry, expired for almost a whole interval,
    stays in the map, although a sweep against the current time would
    remove it.  It is still in the map one full interval after its expiry
    and goes only with the second tick. *)
Lemma C2_sweep_uses_stale_now :
  let t0 := 1800000000000000000 in
  let first_tick :=
    [OpSetValue "k" (IntVal 7) 1; OpJanitorNow 1%positive;
     OpWait 1000000000; OpJanitorTick 1%positive] in
  let one_interval_after_expiry := first_tick ++ [OpJanitorNow 1%positive; OpWait 1] in
  let second_tick :=
    one_interval_after_expiry ++ [OpWait 999999999; OpJanitorTick 1%positive] in
  let observe (ops : list op) :=
    (fun r => (clock r.2, caches (group r.2) !! "k", entry 1%positive "k" r.2,
               sweep (Time_UnixNano (clock r.2)) <$> (items <$> heap r.2 !! 1%positive)))
      <$> program t0 0 ops in
  observe first_tick =
    Some (t0 + defultInterval, Some 1%positive, Some (Item (IntVal 7) (t0 + 1)), Some ∅) /\
  observe one_interval_after_expiry =
    Some (t0 + 1 + defultInterval, Some 1%positive, Some (Item (IntVal 7) (t0 + 1)), Some ∅) /\
  observe second_tick =
    Some (t0 + 2 * defultInterval, Some 1%positive, None, Some ∅).
Proof.
  intros t0 first_tick one_interval_after_expiry second_tick observe.
  split; [by vm_compute|]. split; by vm_compute.
Qed.

(** ** Entries without expiration *)

Lemma entry_store_ne (w : World) (l l' : loc) (c : Cache) (k : string) :
  l' <> l -> entry l k (set_heap (insert l' c) w) = entry l k w.
Proof. intros Hne. unfold entry. simpl. by rewrite lookup_insert_ne. Qed.

Lemma entry_store_eq (w : World) (l : loc) (c : Cache) (k : string) :
  entry l k (set_heap (insert l c) w) = items c !! k.
Proof. unfold entry. simpl. by rewrite lookup_insert_eq. Qed.

Lemma entry_is_Some_heap (w : World) (l : loc) (k : string) (it : item) :
  entry l k w = Some it -> exists c, heap w !! l = Some c /\ items c !! k = Some it.
Proof. unfold entry. destruct (heap w !! l) as [c|]; [by exists c|done]. Qed.

Lemma fresh_ne (w : World) (l : loc) :
  is_Some (heap w !! l) -> fresh (dom (heap w)) <> l.
Proof. intros [c Hc] E. rewrite <- E, fresh_loc_None in Hc. done. Qed.

(** One step that keeps the entry of [k] leaves an entry without expiration
    where it is: in the directory, in the map, with its value. *)
Lemma exec_keeps (o : op) (w w' : World) (r : result) (k p : string) (l : loc)
    (v : iface) :
  splitKey (keyLen (group w)) k = Some p ->
  caches (group w) !! p = Some l ->
  entry l k w = Some (Item v 0) ->
  keeps (keyLen (group w)) k o ->
  exec o w = Some (r, w') ->
  caches (group w') !! p = Some l /\ entry l k w' = Some (Item v 0).
Proof.
  intros Hp Hl He Hk Hx.
  destruct (entry_is_Some_heap _ _ _ _ He) as (c & Hc & Hck).
  destruct o as [key e i|key|key|key v' ttl|key|d|l'|l']; simpl in Hx;
    unfold bind at 1 in Hx.
  - destruct (addCache key e i w) as [[[] w1]|] eqn:E; [|done].
    injection Hx as _ <-.
    destruct (splitKey (keyLen (group w)) key) as [p'|] eqn:Hp'.
    + rewrite (addCache_eq _ _ _ _ _ Hp') in E.
      destruct (caches (group w) !! p') eqn:Hl'; injection E as <-; [done|].
      simpl. split.
      * rewrite lookup_insert_ne; [done|]. intros <-. congruence.
      * unfold alloc_cache.
        change (entry l k (set_heap (insert (fresh (dom (heap w)))
                  (fresh_cache (clock w) e i)) w) = Some (Item v 0)).
        rewrite entry_store_ne; [done|]. apply fresh_ne. by rewrite Hc.
    + unfold addCache in E. revert E. unfold bind. by rewrite getSplitKey_eq, Hp'.
  - destruct (GetValue key w) as [[rv w1]|] eqn:E; [|done].
    injection Hx as _ <-. apply GetValue_frame in E. by subst w1.
  - destruct (GetString key w) as [[rv w1]|] eqn:E; [|done].
    injection Hx as _ <-. apply GetString_frame in E. by subst w1.
  - destruct (SetValue key v' ttl w) as [[[] w1]|] eqn:E; [|done].
    injection Hx as _ <-. simpl in Hk.
    destruct (splitKey (keyLen (group w)) key) as [p'|] eqn:Hp'.
    + rewrite (SetValue_eq _ _ _ _ _ Hp') in E.
      destruct (caches (group w) !! p') as [l'|] eqn:Hl'.
      * destruct (heap w !! l') as [c'|] eqn:Hc'.
        -- rewrite (Cache_setValue_eq _ _ _ _ _ _ Hc') in E. injection E as <-.
           split; [done|]. destruct (decide (l' = l)) as [->|Hne].
           ++ rewrite entry_store_eq. simpl. rewrite lookup_insert_ne; [|done].
              congruence.
           ++ by rewrite entry_store_ne.
        -- unfold Cache_setValue in E. revert E. go_unfold.
           destruct (0 <? ttl); simpl; by rewrite Hc'.
      * simpl in E. erewrite Cache_setValue_eq in E; [|simpl; apply lookup_insert_eq].
        injection E as <-. simpl. split.
        -- rewrite lookup_insert_ne; [done|]. intros <-. congruence.
        -- unfold entry. simpl. rewrite insert_insert_eq, lookup_insert_ne.
           ++ by rewrite Hc.
           ++ apply fresh_ne. by rewrite Hc.
    + unfold SetValue, getCache in E. revert E.
      unfold bind. by rewrite getSplitKey_eq, Hp'.
  - destruct (deleteCache key w) as [[e w1]|] eqn:E; [|done].
    injection Hx as _ <-. simpl in Hk.
    destruct (splitKey (keyLen (group w)) key) as [p'|] eqn:Hp'.
    + rewrite (deleteCache_eq _ _ _ Hp') in E.
      destruct (caches (group w) !! p'); injection E as _ <-; [|done].
      simpl. split; [|done]. rewrite lookup_delete_ne; [done|]. congruence.
    + unfold deleteCache in E. revert E. unfold bind. by rewrite getSplitKey_eq, Hp'.
  - by injection Hx as _ <-.
  - rewrite janitor_run_now_eq in Hx.
    by destruct (goroutines w !! l') as [[|now]|]; simpl in Hx; injection Hx as _ <-.
  - rewrite janitor_run_tick_eq in Hx.
    destruct (goroutines w !! l') as [[|now]|] eqn:Hg; simpl in Hx;
      try (by injection Hx as _ <-).
    destruct (heap w !! l') as [c'|] eqn:Hc'; [|done]. injection Hx as _ <-.
    split; [done|]. unfold entry. simpl.
    destruct (decide (l' = l)) as [->|Hne].
    + rewrite lookup_insert_eq. simpl. rewrite lookup_sweep.
      assert (c' = c) as -> by congruence. by rewrite Hck.
    + rewrite lookup_insert_ne; [|done]. by rewrite Hc.
Qed.

Lemma run_keeps (ops : list op) (w : World) (k p : string) (l : loc) (v : iface) :
  wf w ->
  splitKey (keyLen (group w)) k = Some p ->
  caches (group w) !! p = Some l ->
  entry l k w = Some (Item v 0) ->
  Forall (keeps (keyLen (group w)) k) ops ->
  exists rs w', run ops w = Some (rs, w') /\ wf w' /\
    keyLen (group w') = keyLen (group w) /\
    caches (group w') !! p = Some l /\ entry l k w' = Some (Item v 0).
Proof.
  revert w. induction ops as [|o ops IH]; intros w Hwf Hp Hl He Hk; simpl.
  - by eexists _, _.
  - apply Forall_cons in Hk as [Ho Hk].
    destruct (exec_wf o w Hwf) as (r & w1 & Hr & Hwf1 & Hk1).
    destruct (exec_keeps o w w1 r k p l v Hp Hl He Ho Hr) as [Hl1 He1].
    rewrite <- Hk1 in Hp, Hk.
    destruct (IH w1 Hwf1 Hp Hl1 He1 Hk) as (rs & w2 & Hrs & Hwf2 & Hk2 & Hl2 & He2).
    exists (r :: rs), w2. unfold bind. rewrite Hr, Hrs.
    repeat split; try done; try apply Hwf2. congruence.
Qed.

(** C3.  [SetValue(k, v, ttl)] with [ttl <= 0] stores the entry with
    expiration zero, that is, none.  After any schedule of calls, waits of
    any length and janitor steps that neither sets [k] again nor deletes
    the shard of [k], the entry is still in the map of its shard and
    [GetValue(k)] returns [(v, true)]. *)
Theorem C3_no_expiration (w : World) (k : string) (v : iface) (ttl : Z)
    (ops : list op) :
  wf w ->
  ttl <= 0 ->
  Forall (keeps (keyLen (group w)) k) ops ->
  exists w1 rs w2 p l,
    SetValue k v ttl w = Some (tt, w1) /\
    splitKey (keyLen (group w)) k = Some p /\
    caches (group w1) !! p = Some l /\
    entry l k w1 = Some (Item v 0) /\
    run ops w1 = Some (rs, w2) /\
    caches (group w2) !! p = Some l /\
    entry l k w2 = Some (Item v 0) /\
    GetValue k w2 = Some ((v, true), w2).
Proof.
  intros Hwf Httl Hk.
  destruct (wf_splitKey w k Hwf) as [p Hp].
  destruct (exec_wf (OpSetValue k v ttl) w Hwf) as (r & w1 & Hr & Hwf1 & Hk1).
  simpl in Hr. unfold bind at 1 in Hr.
  destruct (SetValue k v ttl w) as [[[] w1']|] eqn:Hs; [|done].
  injection Hr as _ ->.
  assert (stamp (clock w) ttl = 0) as Hst.
  { unfold stamp. destruct (Z.ltb_spec 0 ttl); [lia|done]. }
  assert (exists l, caches (group w1) !! p = Some l /\ entry l k w1 = Some (Item v 0))
    as (l & Hl1 & He1).
  { rewrite (SetValue_eq _ _ _ _ _ Hp) in Hs.
    destruct (caches (group w) !! p) as [l|] eqn:Hl.
    - destruct Hwf as (_ & Hd & _). destruct (Hd _ _ Hl) as [c Hc].
      rewrite (Cache_setValue_eq _ _ _ _ _ _ Hc), Hst in Hs. injection Hs as <-.
      exists l. split; [done|]. rewrite entry_store_eq. simpl.
      by rewrite lookup_insert_eq.
    - simpl in Hs. erewrite Cache_setValue_eq in Hs; [|simpl; apply lookup_insert_eq].
      injection Hs as <-. eexists. split; [simpl; apply lookup_insert_eq|].
      simpl. rewrite Hst. unfold entry. simpl.
      rewrite lookup_insert_eq. simpl. by rewrite lookup_insert_eq. }
  rewrite <- Hk1 in Hp, Hk.
  destruct (run_keeps ops w1 k p l v Hwf1 Hp Hl1 He1 Hk)
    as (rs & w2 & Hrs & Hwf2 & Hk2 & Hl2 & He2).
  exists w1, rs, w2, p, l. rewrite Hk1 in Hp.
  repeat split; try done.
  rewrite <- Hk1, <- Hk2 in Hp. rewrite (GetValue_eq _ _ _ Hp), Hl2.
  destruct (entry_is_Some_heap _ _ _ _ He2) as (c & Hc & Hck).
  by rewrite (Cache_getValue_eq _ _ _ _ Hc), Hck.
Qed.

Lemma C3_no_expiration_witness :
  let w := MkWorld 1000 ∅ ∅ (MkCacheGroup ∅ 1000 defultKeyLen) in
  let ops := [OpWait 1000000000000000000000000000000; OpJanitorNow 1%positive;
              OpWait 5; OpJanitorTick 1%positive;
              OpSetValue "abcY" (StringVal "y") 3; OpDeleteCache "xyz";
              OpAddCache "abZ" 7 0; OpGetString "abcX"] in
  (wf w /\ -1 <= 0 /\ Forall (keeps (keyLen (group w)) "abcX") ops) /\
  exists w1 rs w2 p l,
    SetValue "abcX" (IntVal 42) (-1) w = Some (tt, w1) /\
    splitKey (keyLen (group w)) "abcX" = Some p /\
    caches (group w1) !! p = Some l /\
    entry l "abcX" w1 = Some (Item (IntVal 42) 0) /\
    run ops w1 = Some (rs, w2) /\
    caches (group w2) !! p = Some l /\
    entry l "abcX" w2 = Some (Item (IntVal 42) 0) /\
    GetValue "abcX" w2 = Some ((IntVal 42, true), w2).
Proof.
  intros w ops.
  assert (wf w) as H1 by (apply (start_wf 1000 0); reflexivity).
  assert (-1 <= 0) as H2 by lia.
  assert (Forall (keeps (keyLen (group w)) "abcX") ops) as H3.
  { repeat constructor; simpl; vm_compute; discriminate. }
  split; [by repeat split|].
  exact (C3_no_expiration w "abcX" (IntVal 42) (-1) ops H1 H2 H3).
Defined.

(** ** Routing by prefix *)

(** What [SetValue] does in a well-formed world. *)
Lemma SetValue_spec (w : World) (k p : string) (v : iface) (ttl : Z) :
  wf w ->
  splitKey (keyLen (group w)) k = Some p ->
  exists l w',
    SetValue k v ttl w = Some (tt, w') /\
    wf w' /\ keyLen (group w') = keyLen (group w) /\ clock w' = clock w /\
    caches (group w') = <[p := l]> (caches (group w)) /\
    entry l k w' = Some (Item v (stamp (clock w) ttl)) /\
    (forall l0, caches (group w) !! p = Some l0 -> l = l0) /\
    (forall k', k' <> k -> caches (group w) !! p = Some l ->
                entry l k' w' = entry l k' w) /\
    (caches (group w) !! p = None -> l = fresh (dom (heap w))).
Proof.
  intros Hwf Hp. rewrite (SetValue_eq _ _ _ _ _ Hp).
  destruct (caches (group w) !! p) as [l|] eqn:Hl.
  - pose proof Hwf as (_ & Hd & _). destruct (Hd _ _ Hl) as [c Hc].
    rewrite (Cache_setValue_eq _ _ _ _ _ _ Hc). exists l. eexists.
    split; [done|]. split; [by apply wf_store|]. split; [done|].
    split; [done|]. split; [simpl; by rewrite insert_id|].
    split; [rewrite entry_store_eq; simpl; by rewrite lookup_insert_eq|].
    split; [congruence|].
    split; [|done]. intros k' Hk' _. rewrite entry_store_eq. simpl.
    rewrite lookup_insert_ne; [|done]. unfold entry. by rewrite Hc.
  - simpl. erewrite Cache_setValue_eq; [|simpl; apply lookup_insert_eq].
    eexists _, _. split; [done|]. split; [by apply wf_store, wf_alloc|].
    split; [done|]. split; [done|]. split; [done|].
    split; [rewrite entry_store_eq; simpl; by rewrite lookup_insert_eq|].
    split; [done|]. split; [done|done].
Qed.

(** After a shard has gone from the directory, no key of its prefix is
    found. *)
Lemma GetValue_no_shard (w : World) (k p : string) :
  splitKey (keyLen (group w)) k = Some p ->
  caches (group w) !! p = None ->
  GetValue k w = Some ((Nil, false), w).
Proof. intros Hp Hl. by rewrite (GetValue_eq _ _ _ Hp), Hl. Qed.

Lemma ascii_only_chars (s : string) :
  ascii_only s = true ->
  spec_char_count s = String.length s /\
  forall n, spec_take_chars n s = substring 0 n s.
Proof.
  induction s as [|a s IH]; simpl.
  - intros _. split; [done|]. by intros [|n].
  - intros [Ha Hs]%andb_true_iff. destruct (IH Hs) as [Hc Ht].
    assert (spec_is_continuation a = false) as ->.
    { unfold spec_is_continuation. apply Nat.ltb_lt in Ha.
      apply andb_false_iff. left. apply Nat.leb_gt. lia. }
    split; [by rewrite Hc|]. intros [|n]; [done|]. by rewrite Ht.
Qed.

Lemma splitKey_ascii (n : Z) (key p : string) :
  splitKey n key = Some p -> ascii_only key = true -> p = spec_shard_id n key.
Proof.
  intros Hp Ha. destruct (ascii_only_chars key Ha) as [Hc Ht].
  unfold splitKey in Hp. unfold spec_shard_id. rewrite Hc, Ht.
  destruct (Z.of_nat (String.length key) <=? n); [congruence|].
  destruct (n <? 0); congruence.
Qed.

(** C5 (as amended).  The shard identifier computed by [getSplitKey] is
    the first [keyLen] bytes of the key, or the whole key when its length
    in bytes is not greater than [keyLen]; for a key of ASCII bytes these
    are its first [keyLen] characters.  Every routing operation works on
    the shard of that identifier: [getCache] looks it up, [GetValue] reads
    in it, [SetValue] writes into it, [addCache] creates it when missing
    and [deleteCache] removes it.  Two [SetValue]s on keys with the same
    identifier write both entries into the same shard, where [GetValue]
    finds them, and after [deleteCache] on either key [GetValue] finds
    neither. *)
Theorem C5_prefix_routing (w : World) (k1 k2 : string) :
  wf w ->
  exists p,
    (getSplitKey k1 w = Some (p, w) /\
     (exists rest, k1 = (p ++ rest)%string) /\
     Z.of_nat (String.length p) =
       Z.min (Z.of_nat (String.length k1)) (keyLen (group w)) /\
     (ascii_only k1 = true -> p = spec_shard_id (keyLen (group w)) k1)) /\
    (getCache k1 w = Some (caches (group w) !! p, w) /\
     GetValue k1 w =
       match caches (group w) !! p with
       | Some l => Cache_getValue l k1 w
       | None => Some ((Nil, false), w)
       end /\
     (forall v t, exists l w',
        SetValue k1 v t w = Some (tt, w') /\
        caches (group w') = <[p := l]> (caches (group w)) /\
        entry l k1 w' = Some (Item v (stamp (clock w) t))) /\
     (forall e i, exists w',
        addCache k1 e i w = Some (tt, w') /\
        is_Some (caches (group w') !! p) /\
        (forall q, q <> p -> caches (group w') !! q = caches (group w) !! q) /\
        (is_Some (caches (group w) !! p) -> w' = w)) /\
     (exists e w',
        deleteCache k1 w = Some (e, w') /\
        caches (group w') = delete p (caches (group w)))) /\
    (splitKey (keyLen (group w)) k1 = splitKey (keyLen (group w)) k2 ->
     getCache k1 w = getCache k2 w /\
     (forall e i, addCache k1 e i w = addCache k2 e i w) /\
     deleteCache k1 w = deleteCache k2 w /\
     (forall v1 v2 t1 t2, exists w' l,
        (SetValue k1 v1 t1 ;;; SetValue k2 v2 t2) w = Some (tt, w') /\
        getCache k1 w' = Some (Some l, w') /\
        getCache k2 w' = Some (Some l, w') /\
        entry l k2 w' = Some (Item v2 (stamp (clock w) t2)) /\
        (k1 <> k2 -> entry l k1 w' = Some (Item v1 (stamp (clock w) t1))) /\
        GetValue k2 w' =
          Some (if (0 <? stamp (clock w) t2) &&
                   (stamp (clock w) t2 <? Time_UnixNano (clock w))
                then (Nil, false) else (v2, true), w') /\
        (k1 <> k2 ->
         GetValue k1 w' =
           Some (if (0 <? stamp (clock w) t1) &&
                    (stamp (clock w) t1 <? Time_UnixNano (clock w))
                 then (Nil, false) else (v1, true), w')) /\
        (forall k, k = k1 \/ k = k2 ->
           exists w'', deleteCache k w' = Some (nil_error, w'') /\
             GetValue k1 w'' = Some ((Nil, false), w'') /\
             GetValue k2 w'' = Some ((Nil, false), w''))) /\
     (forall k e w', (k = k1 \/ k = k2) -> deleteCache k w = Some (e, w') ->
        GetValue k1 w' = Some ((Nil, false), w') /\
        GetValue k2 w' = Some ((Nil, false), w'))).
Proof.
  intros Hwf. destruct (wf_splitKey w k1 Hwf) as [p Hp]. exists p.
  split; [|split].
  - rewrite getSplitKey_eq, Hp. split; [done|].
    destruct (splitKey_prefix _ _ _ Hp) as [Hpre Hlen].
    split; [done|]. split; [done|]. by apply splitKey_ascii.
  - split; [by apply getCache_eq|]. split; [by apply GetValue_eq|].
    split; [|split].
    + intros v t.
      destruct (SetValue_spec w k1 p v t Hwf Hp)
        as (l & w' & Hs & _ & _ & _ & Hd & He & _).
      by exists l, w'.
    + intros e i. rewrite (addCache_eq _ _ _ _ _ Hp).
      destruct (caches (group w) !! p) as [l|] eqn:Hl.
      * exists w. split; [done|]. split; [by rewrite Hl|]. done.
      * eexists. split; [done|]. simpl.
        split; [rewrite lookup_insert_eq; by eexists|].
        split; [intros q Hq; by rewrite lookup_insert_ne|].
        by intros [? ?].
    + rewrite (deleteCache_eq _ _ _ Hp).
      destruct (caches (group w) !! p) as [l|] eqn:Hl.
      * by eexists _, _.
      * eexists _, _. split; [done|]. by rewrite delete_id.
  - intros Heq. pose proof Hp as Hp2. rewrite Heq in Hp2.
    split; [by rewrite (getCache_eq _ _ _ Hp), (getCache_eq _ _ _ Hp2)|].
    split; [intros e i; by rewrite (addCache_eq _ _ _ _ _ Hp), (addCache_eq _ _ _ _ _ Hp2)|].
    split; [by rewrite (deleteCache_eq _ _ _ Hp), (deleteCache_eq _ _ _ Hp2)|].
    split.
    + intros v1 v2 t1 t2.
      destruct (SetValue_spec w k1 p v1 t1 Hwf Hp)
        as (l & w1 & Hs1 & Hwf1 & Hk1 & Hc1 & Hd1 & He1 & _ & _ & _).
      rewrite <- Hk1 in Hp2.
      destruct (SetValue_spec w1 k2 p v2 t2 Hwf1 Hp2)
        as (l' & w2 & Hs2 & Hwf2 & Hk2 & Hc2 & Hd2 & He2 & Hsame & Hf2 & Hn2).
      assert (caches (group w1) !! p = Some l) as Hl1
        by (rewrite Hd1; apply lookup_insert_eq).
      assert (caches (group w2) !! p = Some l') as Hl2
        by (rewrite Hd2; apply lookup_insert_eq).
      assert (l' = l) as -> by (by apply Hsame).
      exists w2, l. unfold bind. rewrite Hs1. split; [done|].
      rewrite <- Hk2 in Hp2. rewrite <- Hk1, <- Hk2 in Hp.
      split; [by rewrite (getCache_eq _ _ _ Hp), Hl2|].
      split; [by rewrite (getCache_eq _ _ _ Hp2), Hl2|].
      assert (entry l k2 w2 = Some (Item v2 (stamp (clock w) t2))) as E2
        by (by rewrite He2, Hc1).
      assert (k1 <> k2 -> entry l k1 w2 = Some (Item v1 (stamp (clock w) t1)))
        as E1 by (intros Hne; by rewrite Hf2).
      assert (forall k v t, splitKey (keyLen (group w2)) k = Some p ->
                entry l k w2 = Some (Item v (stamp (clock w) t)) ->
                GetValue k w2 =
                  Some (if (0 <? stamp (clock w) t) &&
                           (stamp (clock w) t <? Time_UnixNano (clock w))
                        then (Nil, false) else (v, true), w2)) as Hget.
      { intros k v t Hk He. rewrite (GetValue_eq _ _ _ Hk), Hl2.
        destruct (entry_is_Some_heap _ _ _ _ He) as (c & Hc & Hck).
        rewrite (Cache_getValue_eq _ _ _ _ Hc), Hck.
        unfold visible, sweepable. simpl. by rewrite Hc2, Hc1. }
      split; [done|]. split; [done|].
      split; [by apply Hget|]. split; [intros Hne; by apply Hget, E1|].
      intros k Hk.
      assert (splitKey (keyLen (group w2)) k = Some p) as Hpk
        by (destruct Hk as [->| ->]; done).
      rewrite (deleteCache_eq _ _ _ Hpk), Hl2. eexists. split; [done|].
      split; apply (GetValue_no_shard _ _ p); try done; simpl;
        apply lookup_delete_eq.
    + intros k e w' Hk Hdel.
      assert (splitKey (keyLen (group w)) k = Some p) as Hpk
        by (destruct Hk as [->| ->]; done).
      rewrite (deleteCache_eq _ _ _ Hpk) in Hdel.
      assert (keyLen (group w') = keyLen (group w) /\ caches (group w') !! p = None)
        as [Hk' Hnone].
      { destruct (caches (group w) !! p) eqn:Hl; injection Hdel as _ <-; simpl.
        - split; [done|]. apply lookup_delete_eq.
        - done. }
      rewrite <- Hk' in Hp, Hp2.
      split; by apply (GetValue_no_shard _ _ p).
Qed.

Lemma C5_prefix_routing_witness :
  let w := MkWorld 1000 ∅ ∅ (MkCacheGroup ∅ 1000 defultKeyLen) in
  (wf w /\
   splitKey (keyLen (group w)) "abcX" = splitKey (keyLen (group w)) "abcY" /\
   ascii_only "abcX" = true /\ "abcX" <> "abcY") /\
  getSplitKey "abcX" w = Some ("abc", w) /\
  spec_shard_id 3 "abcX" = "abc" /\
  (exists w', addCache "abcX" 0 0 w = Some (tt, w') /\
              is_Some (caches (group w') !! "abc")) /\
  exists w' l,
    (SetValue "abcX" (IntVal 1) 0 ;;; SetValue "abcY" (IntVal 2) 0) w = Some (tt, w') /\
    getCache "abcX" w' = Some (Some l, w') /\
    getCache "abcY" w' = Some (Some l, w') /\
    GetValue "abcX" w' = Some ((IntVal 1, true), w') /\
    GetValue "abcY" w' = Some ((IntVal 2, true), w') /\
    (exists w'', deleteCache "abcX" w' = Some (nil_error, w'') /\
       GetValue "abcX" w'' = Some ((Nil, false), w'') /\
       GetValue "abcY" w'' = Some ((Nil, false), w'')) /\
    (exists w'', deleteCache "abcY" w' = Some (nil_error, w'') /\
       GetValue "abcX" w'' = Some ((Nil, false), w'') /\
       GetValue "abcY" w'' = Some ((Nil, false), w'')).
Proof.
  intros w.
  assert (wf w) as H1 by (apply (start_wf 1000 0); reflexivity).
  assert (splitKey (keyLen (group w)) "abcX" = splitKey (keyLen (group w)) "abcY")
    as H2 by (vm_compute; reflexivity).
  assert (ascii_only "abcX" = true) as H3 by reflexivity.
  assert ("abcX" <> "abcY") as H4 by discriminate.
  destruct (C5_prefix_routing w "abcX" "abcY" H1)
    as (p & (G1 & _ & _ & G2) & (_ & _ & _ & G3 & _) & G4).
  assert (p = "abc") as ->.
  { rewrite getSplitKey_eq in G1. vm_compute in G1. congruence. }
  destruct (G4 H2) as (_ & _ & _ & G5 & _).
  destruct (G5 (IntVal 1) (IntVal 2) 0 0)
    as (w' & l & E1 & E2 & E3 & _ & _ & E4 & E5 & E6).
  split; [by repeat split|]. split; [exact G1|].
  split; [symmetry; exact (G2 H3)|]. split.
  { destruct (G3 0 0) as (wa & Ea & Eb & _). by exists wa. }
  exists w', l. split; [exact E1|]. split; [exact E2|]. split; [exact E3|].
  split; [exact (E5 H4)|]. split; [exact E4|].
  split; [apply E6; by left|apply E6; by right].
Defined.

(** C5, as stated, fails on keys with characters of more than one byte.
    The key [ééé] has three characters, so the spec's identifier for prefix
    length 3 is the whole key, but [getSplitKey] returns its first three
    bytes, which is another string.  The keys [éa1] and [éa2] differ in
    their third character, so by the spec's identifier they belong to two
    shards; in the code both go to the shard of the bytes of [éa], and
    deleting the shard through the first key makes the second a miss. *)
Lemma C5_counterexample :
  let e_acute := String (ascii_of_nat 195) (String (ascii_of_nat 169) EmptyString) in
  let eee := (e_acute ++ e_acute ++ e_acute)%string in
  let ea1 := (e_acute ++ "a1")%string in
  let ea2 := (e_acute ++ "a2")%string in
  let w := MkWorld 1000 ∅ ∅ (MkCacheGroup ∅ 1000 defultKeyLen) in
  (spec_char_count eee = 3%nat /\ spec_shard_id 3 eee = eee /\
   fst <$> getSplitKey eee w = Some (e_acute ++ String (ascii_of_nat 195) EmptyString)%string /\
   fst <$> getSplitKey eee w <> Some (spec_shard_id 3 eee)) /\
  (spec_shard_id 3 ea1 = ea1 /\ spec_shard_id 3 ea2 = ea2 /\
   spec_shard_id 3 ea1 <> spec_shard_id 3 ea2 /\
   fst <$> getSplitKey ea1 w = fst <$> getSplitKey ea2 w /\
   fst <$> program 1000 0 [OpSetValue ea1 (IntVal 1) 0; OpSetValue ea2 (IntVal 2) 0;
                           OpGetValue ea2; OpDeleteCache ea1; OpGetValue ea2]
     = Some [RUnit; RUnit; RValue (IntVal 2) true; RError nil_error;
             RValue Nil false]).
Proof.
  intros e_acute eee ea1 ea2 w.
  split; repeat split; try (vm_compute; reflexivity); vm_compute; discriminate.
Qed.

(** ** Typed read *)

(** C6.  Let [p] be the identifier of [k].  [GetString(k)] returns the
    error [key not found], and [GetValue(k)] reports [false], when the
    directory has no shard for [p], when the shard has no entry for [k],
    and when the entry's expiration is set and past.  Otherwise the entry
    is visible: [GetValue(k)] returns the stored object with [true], and
    [GetString(k)] returns the stored string and no error when the object
    is a string, and the error [value not is string] when it is not, as
    after [SetValue(k, 42, 0)].  So the error is [key not found] exactly
    when [GetValue] reports [false], and [value not is string] exactly
    when the key is visible with an object that is not a string. *)
Theorem C6_GetString (w : World) (k : string) :
  wf w ->
  exists p, splitKey (keyLen (group w)) k = Some p /\
  (caches (group w) !! p = None ->
   GetValue k w = Some ((Nil, false), w) /\
   GetString k w = Some ((EmptyString, err_key_not_found), w)) /\
  (forall l, caches (group w) !! p = Some l ->
     (entry l k w = None ->
      GetValue k w = Some ((Nil, false), w) /\
      GetString k w = Some ((EmptyString, err_key_not_found), w)) /\
     (forall it, entry l k w = Some it ->
        (0 < expiration it < Time_UnixNano (clock w) ->
         GetValue k w = Some ((Nil, false), w) /\
         GetString k w = Some ((EmptyString, err_key_not_found), w)) /\
        (~ 0 < expiration it < Time_UnixNano (clock w) ->
         GetValue k w = Some ((object it, true), w) /\
         (forall s, object it = StringVal s ->
                    GetString k w = Some ((s, nil_error), w)) /\
         ((forall s, object it <> StringVal s) ->
          GetString k w = Some ((EmptyString, err_not_string), w))))) /\
  (exists v ok s e,
     GetValue k w = Some ((v, ok), w) /\ GetString k w = Some ((s, e), w) /\
     (e = err_key_not_found <-> ok = false) /\
     (e = err_not_string <-> ok = true /\ forall s', v <> StringVal s') /\
     (e = nil_error <-> ok = true /\ v = StringVal s) /\
     (ok = false <->
        caches (group w) !! p = None \/
        exists l, caches (group w) !! p = Some l /\
          (entry l k w = None \/
           exists it, entry l k w = Some it /\
                      0 < expiration it < Time_UnixNano (clock w))) /\
     (ok = true ->
        exists l it, caches (group w) !! p = Some l /\
                     entry l k w = Some it /\ v = object it)) /\
  (forall v ttl, ttl <= 0 ->
     exists w', SetValue k v ttl w = Some (tt, w') /\
       GetValue k w' = Some ((v, true), w') /\
       GetString k w' =
         Some (match v with
               | StringVal s => (s, nil_error)
               | _ => (EmptyString, err_not_string)
               end, w')).
Proof.
  intros Hwf. destruct (wf_splitKey w k Hwf) as [p Hp]. exists p.
  split; [done|].
  assert (forall o, GetValue k w = Some (o, w) ->
            GetString k w =
              Some (match o with
                    | (StringVal s, true) => (s, nil_error)
                    | (_, true) => (EmptyString, err_not_string)
                    | (_, false) => (EmptyString, err_key_not_found)
                    end, w)) as Hstr.
  { intros [v ok] Hg. rewrite GetString_eq, Hg. by destruct v, ok. }
  assert (caches (group w) !! p = None ->
          GetValue k w = Some ((Nil, false), w)) as Hnoshard.
  { intros Hn. by apply (GetValue_no_shard _ _ p). }
  assert (forall l, caches (group w) !! p = Some l ->
            GetValue k w =
              Some (visible (Time_UnixNano (clock w)) (entry l k w), w)) as Hshard.
  { intros l Hl. pose proof Hwf as (_ & Hd & _). destruct (Hd _ _ Hl) as [c Hc].
    rewrite (GetValue_eq _ _ _ Hp), Hl, (Cache_getValue_eq _ _ _ _ Hc).
    unfold entry. by rewrite Hc. }
  assert (forall it, (0 < expiration it < Time_UnixNano (clock w) ->
                      sweepable (Time_UnixNano (clock w)) it = true) /\
                     (~ 0 < expiration it < Time_UnixNano (clock w) ->
                      sweepable (Time_UnixNano (clock w)) it = false)) as Hsw.
  { intros it. unfold sweepable.
    destruct (Z.ltb_spec 0 (expiration it));
      destruct (Z.ltb_spec (expiration it) (Time_UnixNano (clock w)));
      simpl; split; intros; try done; lia. }
  split; [|split; [|split]].
  - intros Hn. pose proof (Hnoshard Hn) as Hg. split; [done|]. by rewrite (Hstr _ Hg).
  - intros l Hl. pose proof (Hshard l Hl) as Hg. split.
    + intros He. rewrite He in Hg. simpl in Hg. split; [done|]. by rewrite (Hstr _ Hg).
    + intros it He. rewrite He in Hg. simpl in Hg. split.
      * intros Hx. rewrite (proj1 (Hsw it) Hx) in Hg.
        split; [done|]. by rewrite (Hstr _ Hg).
      * intros Hx. rewrite (proj2 (Hsw it) Hx) in Hg. split; [done|].
        rewrite (Hstr _ Hg). split.
        -- by intros s ->.
        -- intros Hns. destruct (object it) as [|s| | |]; try done. by destruct (Hns s).
  - assert (exists v ok, GetValue k w = Some ((v, ok), w) /\
       (ok = false <->
          caches (group w) !! p = None \/
          exists l, caches (group w) !! p = Some l /\
            (entry l k w = None \/
             exists it, entry l k w = Some it /\
                        0 < expiration it < Time_UnixNano (clock w))) /\
       (ok = true ->
          exists l it, caches (group w) !! p = Some l /\
                       entry l k w = Some it /\ v = object it))
      as (v & ok & Hg & Hok & Hhit).
    { destruct (caches (group w) !! p) as [l|] eqn:Hl.
      - rewrite (Hshard l eq_refl).
        destruct (entry l k w) as [it|] eqn:Hit; simpl.
        + destruct (sweepable (Time_UnixNano (clock w)) it) eqn:Hs.
          * eexists _, _. split; [done|]. split; [|done]. split; [|done].
            intros _. right. exists l. split; [done|]. right. exists it.
            split; [done|]. destruct (Hsw it) as [_ H2].
            destruct (decide (0 < expiration it < Time_UnixNano (clock w)));
              [done|]. rewrite H2 in Hs; done.
          * eexists _, _. split; [done|]. split.
            -- split; [done|].
               intros [|(l' & Hl' & Hcase)]; [done|]. injection Hl' as <-.
               destruct Hcase as [Hn|(it' & Hit' & Hx)]; [congruence|].
               assert (it' = it) as -> by congruence.
               by rewrite (proj1 (Hsw it) Hx) in Hs.
            -- intros _. by exists l, it.
        + eexists _, _. split; [done|]. split; [|done]. split; [|done].
          intros _. right. exists l. split; [done|]. by left.
      - rewrite (Hnoshard eq_refl). eexists _, _. split; [done|].
        split; [|done]. split; [|done]. intros _. by left. }
    pose proof (Hstr _ Hg) as Hs.
    assert (exists s e, GetString k w = Some ((s, e), w) /\
              (e = err_key_not_found <-> ok = false) /\
              (e = err_not_string <-> ok = true /\ forall s', v <> StringVal s') /\
              (e = nil_error <-> ok = true /\ v = StringVal s))
      as (s & e & Hs' & H1 & H2 & H3).
    { destruct ok; [destruct v as [|s0| | |]|];
        [| | | | |assert (GetString k w = Some ((EmptyString, err_key_not_found), w))
                    as Hs0 by (by destruct v); clear Hs; rename Hs0 into Hs];
        eexists _, _; (split; [exact Hs|]);
        repeat split; try done; try (by intros [? ?]).
      intros [_ Hn]. by destruct (Hn s0). }
    exists v, ok, s, e.
    exact (conj Hg (conj Hs' (conj H1 (conj H2 (conj H3 (conj Hok Hhit)))))).
  - intros v ttl Httl.
    destruct (SetValue_spec w k p v ttl Hwf Hp)
      as (l & w' & Hs & Hwf' & Hk' & Hc' & Hd' & He' & _).
    exists w'. split; [done|].
    assert (GetValue k w' = Some ((v, true), w')) as Hg.
    { rewrite <- Hk' in Hp. rewrite (GetValue_eq _ _ _ Hp), Hd', lookup_insert_eq.
      destruct (entry_is_Some_heap _ _ _ _ He') as (c & Hc & Hck).
      rewrite (Cache_getValue_eq _ _ _ _ Hc), Hck. unfold visible, sweepable, stamp.
      simpl. by destruct (Z.ltb_spec 0 ttl); [lia|]. }
    split; [done|]. rewrite GetString_eq, Hg. by destruct v.
Qed.

Lemma C6_GetString_witness :
  let w := MkWorld 1000
             {[1%positive := MkCache {["abcS" := Item (StringVal "hello") 0]}
                               (Janitor defultInterval) 0]}
             {[1%positive := AtLoopTop]} (MkCacheGroup {["abc" := 1%positive]} 0 3) in
  (wf w /\ caches (group w) !! "abc" = Some 1%positive /\
   entry 1%positive "abcS" w = Some (Item (StringVal "hello") 0) /\
   ~ 0 < 0 < Time_UnixNano (clock w)) /\
  GetValue "abcS" w = Some ((StringVal "hello", true), w) /\
  GetString "abcS" w = Some (("hello", nil_error), w) /\
  (exists w', SetValue "abcS" (IntVal 42) 0 w = Some (tt, w') /\
     GetValue "abcS" w' = Some ((IntVal 42, true), w') /\
     GetString "abcS" w' = Some ((EmptyString, err_not_string), w')).
Proof.
  intros w.
  assert (wf w) as H1.
  { split; [vm_compute; discriminate|]. split.
    - intros p l Hl. destruct (decide (p = "abc")) as [->|Hne].
      + vm_compute in Hl. injection Hl as <-. by eexists.
      + unfold w in Hl. simpl in Hl. by rewrite lookup_singleton_ne in Hl.
    - intros l pc Hl. destruct (decide (l = 1%positive)) as [->|Hne].
      + by eexists.
      + unfold w in Hl. simpl in Hl. by rewrite lookup_singleton_ne in Hl. }
  assert (caches (group w) !! "abc" = Some 1%positive) as H2 by reflexivity.
  assert (entry 1%positive "abcS" w = Some (Item (StringVal "hello") 0)) as H3
    by reflexivity.
  assert (~ 0 < 0 < Time_UnixNano (clock w)) as H4 by (intros [H _]; inversion H).
  destruct (C6_GetString w "abcS" H1) as (p & Hp & _ & G1 & _ & G2).
  assert (p = "abc") as -> by (vm_compute in Hp; congruence).
  destruct (G1 1%positive H2) as [_ G3].
  destruct (G3 _ H3) as [_ G4]. destruct (G4 H4) as (G5 & G6 & _).
  split; [exact (conj H1 (conj H2 (conj H3 H4)))|]. split; [exact G5|].
  split; [exact (G6 "hello" eq_refl)|].
  exact (G2 (IntVal 42) 0 ltac:(done)).
Defined.

(** ** Shard deletion *)

(** C7.  Let [p] be the identifier of [key].  If the directory has a shard
    for [p], [deleteCache(key)] returns no error and removes that shard,
    and only that one, from the directory: afterwards no key with
    identifier [p] is found.  If the directory has no shard for [p],
    [deleteCache(key)] returns the error [key not exist] and changes
    nothing. *)
Theorem C7_deleteCache (w : World) (key p : string) :
  splitKey (keyLen (group w)) key = Some p ->
  (forall l, caches (group w) !! p = Some l ->
     exists w', deleteCache key w = Some (nil_error, w') /\
       caches (group w') = delete p (caches (group w)) /\
       caches (group w') !! p = None /\
       (forall p', p' <> p -> caches (group w') !! p' = caches (group w) !! p') /\
       (forall k, splitKey (keyLen (group w)) k = Some p ->
                  GetValue k w' = Some ((Nil, false), w'))) /\
  (caches (group w) !! p = None ->
   deleteCache key w = Some (err_key_not_exist, w)).
Proof.
  intros Hp. rewrite (deleteCache_eq _ _ _ Hp). split.
  - intros l Hl. rewrite Hl. eexists. split; [done|]. simpl.
    split; [done|]. split; [apply lookup_delete_eq|].
    split; [intros p' Hne; by apply lookup_delete_ne|].
    intros k Hk. apply (GetValue_no_shard _ _ p); [done|]. simpl.
    apply lookup_delete_eq.
  - by intros ->.
Qed.

Lemma C7_deleteCache_witness :
  let w := MkWorld 1000
             {[1%positive := MkCache {["abcS" := Item (StringVal "hello") 0]}
                               (Janitor defultInterval) 0]}
             {[1%positive := AtLoopTop]} (MkCacheGroup {["abc" := 1%positive]} 0 3) in
  (splitKey (keyLen (group w)) "abcX" = Some "abc" /\
   caches (group w) !! "abc" = Some 1%positive /\
   splitKey (keyLen (group w)) "xyz" = Some "xyz" /\
   caches (group w) !! "xyz" = None) /\
  (exists w', deleteCache "abcX" w = Some (nil_error, w') /\
     caches (group w') = delete "abc" (caches (group w)) /\
     caches (group w') !! "abc" = None /\
     (forall p', p' <> "abc" -> caches (group w') !! p' = caches (group w) !! p') /\
     (forall k, splitKey (keyLen (group w)) k = Some "abc" ->
                GetValue k w' = Some ((Nil, false), w'))) /\
  deleteCache "xyz" w = Some (err_key_not_exist, w).
Proof.
  intros w.
  assert (splitKey (keyLen (group w)) "abcX" = Some "abc") as H1 by reflexivity.
  assert (caches (group w) !! "abc" = Some 1%positive) as H2 by reflexivity.
  assert (splitKey (keyLen (group w)) "xyz" = Some "xyz") as H3 by reflexivity.
  assert (caches (group w) !! "xyz" = None) as H4 by reflexivity.
  split; [by repeat split|]. split.
  - exact (proj1 (C7_deleteCache w "abcX" "abc" H1) 1%positive H2).
  - exact (proj2 (C7_deleteCache w "xyz" "xyz" H3) H4).
Defined.

(** ** Implicit shard creation *)

(** C8.  When the directory has no shard for the identifier [p] of [key]:
    [GetValue(key)] returns [(nil, false)] and changes nothing (so do
    [GetString] and [deleteCache], with their errors), while
    [SetValue(key, v, ttl)] allocates a new [Cache] with no expiration and
    the default interval of one second, starts its janitor, enters it in
    the directory under [p] and writes the entry into it.  In any world,
    [GetValue] and [GetString] leave the directory as it is and
    [deleteCache] adds nothing to it. *)
Theorem C8_implicit_creation (w : World) (key p : string) :
  splitKey (keyLen (group w)) key = Some p ->
  caches (group w) !! p = None ->
  GetValue key w = Some ((Nil, false), w) /\
  GetString key w = Some ((EmptyString, err_key_not_found), w) /\
  deleteCache key w = Some (err_key_not_exist, w) /\
  (forall v ttl,
     let l := fresh (dom (heap w)) in
     heap w !! l = None /\
     SetValue key v ttl w =
     Some (tt, MkWorld (clock w)
                 (<[l := MkCache {[key := Item v (stamp (clock w) ttl)]}
                           (Janitor time_Second) 0]> (heap w))
                 (<[l := AtLoopTop]> (goroutines w))
                 (MkCacheGroup (<[p := l]> (caches (group w)))
                    (group_expiration (group w)) (keyLen (group w))))) /\
  (forall k r w', GetValue k w = Some (r, w') -> group w' = group w) /\
  (forall k r w', GetString k w = Some (r, w') -> group w' = group w) /\
  (forall k e w', deleteCache k w = Some (e, w') ->
     forall p' l', caches (group w') !! p' = Some l' ->
                   caches (group w) !! p' = Some l').
Proof.
  intros Hp Hnone.
  assert (GetValue key w = Some ((Nil, false), w)) as Hg
    by (by apply (GetValue_no_shard _ _ p)).
  split; [done|]. split; [by rewrite GetString_eq, Hg|].
  split; [by rewrite (deleteCache_eq _ _ _ Hp), Hnone|].
  split; [|split; [|split]].
  - intros v ttl l. split; [apply fresh_loc_None|].
    rewrite (SetValue_eq _ _ _ _ _ Hp), Hnone. simpl.
    erewrite Cache_setValue_eq; [|simpl; apply lookup_insert_eq].
    unfold set_heap, set_group, set_caches, alloc_cache, fresh_cache,
      set_goroutines, set_items, newJanitor, defultExpiration, defultInterval,
      time_Second; simpl.
    by rewrite insert_insert_eq, insert_empty.
  - intros k r w' H. apply GetValue_frame in H. by subst.
  - intros k r w' H. apply GetString_frame in H. by subst.
  - intros k e w' H p' l'.
    destruct (splitKey (keyLen (group w)) k) as [q|] eqn:Hq.
    + rewrite (deleteCache_eq _ _ _ Hq) in H.
      destruct (caches (group w) !! q); injection H as _ <-; simpl; [|done].
      rewrite lookup_delete. by case_decide.
    + unfold deleteCache in H. revert H. unfold bind. by rewrite getSplitKey_eq, Hq.
Qed.

Lemma C8_implicit_creation_witness :
  let w := MkWorld 1000 ∅ ∅ (MkCacheGroup ∅ 1000 defultKeyLen) in
  (splitKey (keyLen (group w)) "abcX" = Some "abc" /\
   caches (group w) !! "abc" = None) /\
  GetValue "abcX" w = Some ((Nil, false), w) /\
  SetValue "abcX" (IntVal 1) 5 w =
    Some (tt, MkWorld 1000
                {[1%positive := MkCache {["abcX" := Item (IntVal 1) 1005]}
                                  (Janitor 1000000000) 0]}
                {[1%positive := AtLoopTop]}
                (MkCacheGroup {["abc" := 1%positive]} 1000 3)).
Proof.
  intros w.
  assert (splitKey (keyLen (group w)) "abcX" = Some "abc") as H1 by reflexivity.
  assert (caches (group w) !! "abc" = None) as H2 by reflexivity.
  destruct (C8_implicit_creation w "abcX" "abc" H1 H2) as (G1 & _ & _ & G2 & _).
  split; [by split|]. split; [exact G1|].
  exact (proj2 (G2 (IntVal 1) 5)).
Defined.

(** ** The recorded expirations are dead *)

Lemma erase_store (w : World) (l : loc) (c : Cache) :
  erase (set_heap (insert l c) w) = set_heap (insert l (erase_cache c)) (erase w).
Proof. unfold erase, set_heap. simpl. by rewrite fmap_insert. Qed.

Lemma erase_alloc (w : World) (p : string) (l : loc) (t e i : Z) :
  erase (set_group (set_caches (insert p l)) (alloc_cache l (fresh_cache t e i) w)) =
  set_group (set_caches (insert p l)) (alloc_cache l (fresh_cache t 0 i) (erase w)).
Proof.
  unfold erase, set_group, set_caches, alloc_cache, set_goroutines, set_heap. simpl.
  by rewrite fmap_insert.
Qed.

Lemma dom_heap_erase (w : World) : dom (heap (erase w)) = dom (heap w).
Proof. unfold erase. simpl. apply dom_fmap_L. Qed.

Lemma heap_erase (w : World) (l : loc) :
  heap (erase w) !! l = erase_cache <$> heap w !! l.
Proof. unfold erase. simpl. apply lookup_fmap. Qed.

Lemma Cache_getValue_erase (w : World) (l : loc) (k : string) :
  Cache_getValue l k (erase w) = erased (Cache_getValue l k w).
Proof.
  destruct (heap w !! l) as [c|] eqn:Hc.
  - rewrite (Cache_getValue_eq w l c k Hc).
    by rewrite (Cache_getValue_eq (erase w) l (erase_cache c) k)
      by (by rewrite heap_erase, Hc).
  - unfold Cache_getValue. go_unfold. by rewrite heap_erase, Hc.
Qed.

Lemma Cache_setValue_erase (w : World) (l : loc) (k : string) (v : iface) (ttl : Z) :
  Cache_setValue l k v ttl (erase w) = erased (Cache_setValue l k v ttl w).
Proof.
  destruct (heap w !! l) as [c|] eqn:Hc.
  - rewrite (Cache_setValue_eq w l c k v ttl Hc).
    rewrite (Cache_setValue_eq (erase w) l (erase_cache c) k v ttl)
      by (by rewrite heap_erase, Hc).
    unfold erased. simpl. by rewrite erase_store.
  - unfold Cache_setValue. go_unfold.
    destruct (0 <? ttl); simpl; by rewrite lookup_fmap, Hc.
Qed.

Lemma GetValue_erase (w : World) (k : string) :
  GetValue k (erase w) = erased (GetValue k w).
Proof.
  destruct (splitKey (keyLen (group w)) k) as [p|] eqn:Hp.
  - rewrite (GetValue_eq w k p Hp), (GetValue_eq (erase w) k p Hp). simpl.
    destruct (caches (group w) !! p); [apply Cache_getValue_erase|done].
  - unfold GetValue, getCache, bind. rewrite !getSplitKey_eq. simpl. by rewrite Hp.
Qed.

Lemma addCache_erase (w : World) (key : string) (e i : Z) :
  addCache key 0 i (erase w) = erased (addCache key e i w).
Proof.
  destruct (splitKey (keyLen (group w)) key) as [p|] eqn:Hp.
  - assert (splitKey (keyLen (group (erase w))) key = Some p) as Hp' by exact Hp.
    rewrite (addCache_eq w key p e i Hp), (addCache_eq (erase w) key p 0 i Hp').
    change (caches (group (erase w))) with (caches (group w)).
    destruct (caches (group w) !! p); [done|]. cbv zeta.
    rewrite dom_heap_erase. change (clock (erase w)) with (clock w).
    by rewrite <- (erase_alloc w p _ (clock w) e i).
  - unfold addCache, bind. rewrite !getSplitKey_eq.
    change (keyLen (group (erase w))) with (keyLen (group w)). by rewrite Hp.
Qed.

Lemma GetString_erase (w : World) (k : string) :
  GetString k (erase w) = erased (GetString k w).
Proof.
  rewrite !GetString_eq, GetValue_erase.
  destruct (GetValue k w) as [[[v [|]] w']|]; try done. by destruct v.
Qed.

Lemma SetValue_erase (w : World) (key : string) (v : iface) (ttl : Z) :
  SetValue key v ttl (erase w) = erased (SetValue key v ttl w).
Proof.
  destruct (splitKey (keyLen (group w)) key) as [p|] eqn:Hp.
  - assert (splitKey (keyLen (group (erase w))) key = Some p) as Hp' by exact Hp.
    rewrite (SetValue_eq w key p v ttl Hp), (SetValue_eq (erase w) key p v ttl Hp').
    change (caches (group (erase w))) with (caches (group w)).
    destruct (caches (group w) !! p) as [l|]; [apply Cache_setValue_erase|].
    cbv zeta. rewrite dom_heap_erase. change (clock (erase w)) with (clock w).
    unfold defultExpiration.
    rewrite <- (erase_alloc w p _ (clock w) 0 defultInterval).
    apply Cache_setValue_erase.
  - unfold SetValue, getCache, bind. rewrite !getSplitKey_eq.
    change (keyLen (group (erase w))) with (keyLen (group w)). by rewrite Hp.
Qed.

Lemma deleteCache_erase (w : World) (key : string) :
  deleteCache key (erase w) = erased (deleteCache key w).
Proof.
  destruct (splitKey (keyLen (group w)) key) as [p|] eqn:Hp.
  - rewrite (deleteCache_eq w key p Hp), (deleteCache_eq (erase w) key p Hp).
    simpl. by destruct (caches (group w) !! p).
  - unfold deleteCache, bind. rewrite !getSplitKey_eq. simpl. by rewrite Hp.
Qed.

Lemma janitor_run_now_erase (w : World) (l : loc) :
  janitor_run_now l (erase w) = erased (janitor_run_now l w).
Proof.
  rewrite !janitor_run_now_eq. simpl.
  by destruct (goroutines w !! l) as [[|now]|].
Qed.

Lemma janitor_run_tick_erase (w : World) (l : loc) :
  janitor_run_tick l (erase w) = erased (janitor_run_tick l w).
Proof.
  rewrite !janitor_run_tick_eq. simpl.
  destruct (goroutines w !! l) as [[|now]|]; try done.
  rewrite lookup_fmap. destruct (heap w !! l) as [c|]; [|done]. simpl.
  unfold erased. simpl. do 3 f_equal.
  unfold erase, set_goroutines, set_heap. simpl. by rewrite fmap_insert.
Qed.

Lemma bind_erased {A B} (m m' : Go A) (f : A -> B) (w : World) :
  m' (erase w) = erased (m w) ->
  (x <- m' ;; ret (f x)) (erase w) = erased ((x <- m ;; ret (f x)) w).
Proof.
  unfold bind, ret, erased. intros ->. by destruct (m w) as [[a w']|].
Qed.

Lemma exec_erase (o : op) (w : World) :
  exec (erase_op o) (erase w) = erased (exec o w).
Proof.
  destruct o as [key e i|key|key|key v ttl|key|d|l|l]; simpl.
  - apply (bind_erased _ _ (fun _ => RUnit)), addCache_erase.
  - apply (bind_erased _ _ (fun r => RValue r.1 r.2)), GetValue_erase.
  - apply (bind_erased _ _ (fun r => RString r.1 r.2)), GetString_erase.
  - apply (bind_erased _ _ (fun _ => RUnit)), SetValue_erase.
  - apply (bind_erased _ _ (fun e => RError e)), deleteCache_erase.
  - done.
  - apply (bind_erased _ _ (fun _ => RUnit)), janitor_run_now_erase.
  - apply (bind_erased _ _ (fun _ => RUnit)), janitor_run_tick_erase.
Qed.

Lemma run_erase (ops : list op) (w : World) :
  run (erase_op <$> ops) (erase w) = erased (run ops w).
Proof.
  revert w. induction ops as [|o ops IH]; intros w; [done|].
  simpl. unfold bind at 1 3. fold (erase_op <$> ops).
  rewrite exec_erase. destruct (exec o w) as [[r w1]|]; [|done]. simpl.
  unfold bind at 1 2. rewrite IH. by destruct (run ops w1) as [[rs w2]|].
Qed.

Lemma same_call_erase (ops1 ops2 : list op) :
  Forall2 same_call ops1 ops2 -> erase_op <$> ops1 = erase_op <$> ops2.
Proof.
  induction 1 as [|o1 o2 ops1 ops2 Ho _ IH]; [done|].
  simpl. f_equal; [|done]. by destruct Ho.
Qed.

(** C9.  Two runs that start at the same instant and follow the same
    schedule of calls, waits and janitor steps, but give different
    expirations to [NewCacheGroup] and to the explicit shard creations
    ([addCache]), both run to completion and every call returns the same
    result in both; the final worlds differ at most in the recorded
    expirations. *)
Theorem C9_expiration_unused (t0 e1 e2 : Z) (ops1 ops2 : list op) :
  Forall2 same_call ops1 ops2 ->
  exists rs w1 w2,
    program t0 e1 ops1 = Some (rs, w1) /\
    program t0 e2 ops2 = Some (rs, w2) /\
    erase w1 = erase w2.
Proof.
  intros Hsame. rewrite !program_eq.
  set (W1 := MkWorld t0 ∅ ∅ (MkCacheGroup ∅ (Time_UnixNano (Time_Add t0 e1)) defultKeyLen)).
  set (W2 := MkWorld t0 ∅ ∅ (MkCacheGroup ∅ (Time_UnixNano (Time_Add t0 e2)) defultKeyLen)).
  assert (wf W1) as Hwf1 by (apply (start_wf t0 e1); apply start_eq).
  assert (wf W2) as Hwf2 by (apply (start_wf t0 e2); apply start_eq).
  destruct (run_wf ops1 W1 Hwf1) as (rs1 & w1 & Hr1 & _).
  destruct (run_wf ops2 W2 Hwf2) as (rs2 & w2 & Hr2 & _).
  pose proof (run_erase ops1 W1) as E1. pose proof (run_erase ops2 W2) as E2.
  rewrite Hr1 in E1. rewrite Hr2 in E2.
  rewrite (same_call_erase _ _ Hsame) in E1.
  assert (erase W1 = erase W2) as HW by done.
  rewrite HW, E2 in E1. unfold erased in E1. simpl in E1.
  assert (rs2 = rs1 /\ erase w2 = erase w1) as [Hrs Hw] by (split; congruence).
  exists rs1, w1, w2. by rewrite Hr1, Hr2, Hrs, Hw.
Qed.

Lemma C9_expiration_unused_witness :
  let ops (e : Z) :=
    [OpAddCache "abcX" e 500; OpSetValue "abcX" (StringVal "x") 10;
     OpSetValue "xyz1" (IntVal 1) 0; OpGetString "abcX"; OpWait 11;
     OpJanitorNow 1%positive; OpJanitorTick 1%positive; OpGetValue "abcX";
     OpGetValue "xyz1"; OpDeleteCache "xyz2"; OpGetString "xyz1";
     OpDeleteCache "nop"] in
  Forall2 same_call (ops 0) (ops 7000000000) /\
  exists rs w1 w2,
    program 1000 0 (ops 0) = Some (rs, w1) /\
    program 1000 3600000000000 (ops 7000000000) = Some (rs, w2) /\
    erase w1 = erase w2.
Proof.
  intros ops.
  assert (Forall2 same_call (ops 0) (ops 7000000000)) as H
    by (repeat constructor).
  split; [exact H|].
  exact (C9_expiration_unused 1000 0 3600000000000 (ops 0) (ops 7000000000) H).
Defined.

(** * Further properties of the code *)

Lemma demo_world_wf : wf demo_world.
Proof.
  split; [vm_compute; discriminate|]. split.
  - intros p l Hl. destruct (decide (p = "abc")) as [->|Hne].
    + vm_compute in Hl. injection Hl as <-. by eexists.
    + unfold demo_world in Hl. simpl in Hl. by rewrite lookup_singleton_ne in Hl.
  - intros l pc Hl. destruct (decide (l = 1%positive)) as [->|Hne].
    + by eexists.
    + unfold demo_world in Hl. simpl in Hl. by rewrite lookup_singleton_ne in Hl.
Qed.

(** ** Shard identifiers *)

(** X1.  The identifier of a key is its own identifier: [getSplitKey]
    applied to what it returned gives it back, so a shard can be addressed
    by its identifier as well as by any of its keys. *)
Theorem splitKey_idempotent (n : Z) (key p : string) :
  splitKey n key = Some p -> splitKey n p = Some p.
Proof.
  intros Hp. destruct (splitKey_prefix _ _ _ Hp) as [_ Hlen].
  unfold splitKey in *.
  destruct (Z.leb_spec (Z.of_nat (String.length key)) n) as [Hle|Hgt].
  - injection Hp as <-. by destruct (Z.leb_spec (Z.of_nat (String.length key)) n); [|lia].
  - destruct (Z.ltb_spec n 0); [done|].
    destruct (Z.leb_spec (Z.of_nat (String.length p)) n); [done|lia].
Qed.

Lemma splitKey_idempotent_witness :
  splitKey 3 "abcdef" = Some "abc" /\ splitKey 3 "abc" = Some "abc".
Proof.
  assert (splitKey 3 "abcdef" = Some "abc") as H by reflexivity.
  split; [exact H|]. exact (splitKey_idempotent 3 "abcdef" "abc" H).
Defined.

(** ** Writes *)

Lemma set_items_insert_twice (c : Cache) (k : string) (i1 i2 : item) :
  set_items (insert k i2) (set_items (insert k i1) c) = set_items (insert k i2) c.
Proof. unfold set_items. simpl. by rewrite insert_insert_eq. Qed.

Lemma Cache_setValue_twice (w : World) (l : loc) (k : string) (v1 v2 : iface)
    (t1 t2 : Z) :
  (Cache_setValue l k v1 t1 ;;; Cache_setValue l k v2 t2) w =
  Cache_setValue l k v2 t2 w.
Proof.
  unfold bind. destruct (heap w !! l) as [c|] eqn:Hc.
  - rewrite (Cache_setValue_eq w l c k v1 t1 Hc).
    erewrite Cache_setValue_eq; [|simpl; apply lookup_insert_eq].
    rewrite (Cache_setValue_eq w l c k v2 t2 Hc). simpl.
    unfold set_heap. simpl. by rewrite insert_insert_eq, set_items_insert_twice.
  - assert (forall v t, Cache_setValue l k v t w = None) as Hn.
    { intros v t. unfold Cache_setValue. go_unfold.
      destruct (0 <? t); simpl; by rewrite Hc. }
    by rewrite !Hn.
Qed.

(** X2.  Last write wins: [SetValue(k, v1, t1)] followed at once by
    [SetValue(k, v2, t2)] leaves exactly the world that
    [SetValue(k, v2, t2)] alone leaves; nothing of the first write (value
    or expiration) survives. *)
Theorem SetValue_overwrite (w : World) (k : string) (v1 v2 : iface) (t1 t2 : Z) :
  (SetValue k v1 t1 ;;; SetValue k v2 t2) w = SetValue k v2 t2 w.
Proof.
  destruct (splitKey (keyLen (group w)) k) as [p|] eqn:Hp.
  - unfold bind. rewrite (SetValue_eq w k p v1 t1 Hp), (SetValue_eq w k p v2 t2 Hp).
    destruct (caches (group w) !! p) as [l|] eqn:Hl.
    + pose proof (Cache_setValue_twice w l k v1 v2 t1 t2) as Ht.
      unfold bind in Ht. rewrite <- Ht.
      destruct (Cache_setValue l k v1 t1 w) as [[[] w1]|] eqn:Hs; [|done].
      assert (group w1 = group w) as Hg.
      { destruct (heap w !! l) as [c|] eqn:Hc.
        - rewrite (Cache_setValue_eq w l c k v1 t1 Hc) in Hs. by injection Hs as <-.
        - unfold Cache_setValue in Hs. revert Hs. go_unfold.
          destruct (0 <? t1); simpl; by rewrite Hc. }
      assert (splitKey (keyLen (group w1)) k = Some p) as Hp1 by (by rewrite Hg).
      by rewrite (SetValue_eq w1 k p v2 t2 Hp1), Hg, Hl.
    + cbv zeta.
      set (l := fresh (dom (heap w))).
      set (wa := set_group (set_caches (insert p l))
                   (alloc_cache l (fresh_cache (clock w) defultExpiration defultInterval) w)).
      pose proof (Cache_setValue_twice wa l k v1 v2 t1 t2) as Ht.
      unfold bind in Ht. rewrite <- Ht.
      destruct (Cache_setValue l k v1 t1 wa) as [[[] w1]|] eqn:Hs; [|done].
      assert (group w1 = group wa) as Hg.
      { erewrite Cache_setValue_eq in Hs; [|simpl; apply lookup_insert_eq].
        by injection Hs as <-. }
      assert (splitKey (keyLen (group w1)) k = Some p) as Hp1 by (by rewrite Hg).
      rewrite (SetValue_eq w1 k p v2 t2 Hp1), Hg. simpl.
      by rewrite lookup_insert_eq.
  - unfold bind, SetValue, getCache, bind. by rewrite !getSplitKey_eq, Hp.
Qed.

Lemma read_your_write (w : World) (k : string) (v : iface) (ttl : Z) :
  wf w -> in_int64 (clock w) -> in_int64 ttl ->
  exists w', SetValue k v ttl w = Some (tt, w') /\
             GetValue k w' = Some ((v, true), w').
Proof.
  intros Hwf Hc Ht. destruct (wf_splitKey w k Hwf) as [p Hp].
  destruct (SetValue_spec w k p v ttl Hwf Hp)
    as (l & w' & Hs & Hwf' & Hk' & Hc' & Hd' & He' & _).
  exists w'. split; [done|].
  rewrite <- Hk' in Hp. rewrite (GetValue_eq _ _ _ Hp), Hd', lookup_insert_eq.
  destruct (entry_is_Some_heap _ _ _ _ He') as (c & Hhc & Hck).
  rewrite (Cache_getValue_eq _ _ _ _ Hhc), Hck. unfold visible, sweepable. simpl.
  rewrite Hc'. unfold stamp, Time_UnixNano, Time_Add.
  rewrite (wrap64_id (clock w)) by done.
  destruct (Z.ltb_spec 0 ttl) as [Hpos|]; [|done].
  unfold in_int64, int64_min, int64_max in *.
  destruct (Z_le_gt_dec (clock w + ttl) (2 ^ 63 - 1)) as [Hfit|Hover].
  - rewrite wrap64_id by (unfold in_int64, int64_min, int64_max; lia).
    destruct (Z.ltb_spec (clock w + ttl) (clock w)); [lia|].
    by rewrite andb_false_r.
  - assert (wrap64 (clock w + ttl) = clock w + ttl - 2 ^ 64) as ->.
    { unfold wrap64.
      replace (clock w + ttl + 2 ^ 63) with (clock w + ttl - 2 ^ 63 + 1 * 2 ^ 64) by lia.
      rewrite Z.mod_add by lia. rewrite Z.mod_small by lia. lia. }
    destruct (Z.ltb_spec 0 (clock w + ttl - 2 ^ 64)); [lia|done].
Qed.

(** X3.  Read your write: when the clock and the [ttl] are [int64]
    nanosecond values, [GetValue(k)] issued at the instant of
    [SetValue(k, v, ttl)] returns [(v, true)], for every [ttl], positive or
    not, overflowing stamp or not. *)
Theorem SetValue_GetValue (w : World) (k : string) (v : iface) (ttl : Z) :
  wf w -> in_int64 (clock w) -> in_int64 ttl ->
  exists w', SetValue k v ttl w = Some (tt, w') /\
             GetValue k w' = Some ((v, true), w').
Proof. apply read_your_write. Qed.

Lemma SetValue_GetValue_witness :
  (wf demo_world /\ in_int64 (clock demo_world) /\ in_int64 int64_max) /\
  exists w', SetValue "abcT" Nil int64_max demo_world = Some (tt, w') /\
             GetValue "abcT" w' = Some ((Nil, true), w').
Proof.
  assert (in_int64 (clock demo_world)) as H2 by (vm_compute; split; discriminate).
  assert (in_int64 int64_max) as H3 by (vm_compute; split; discriminate).
  split; [exact (conj demo_world_wf (conj H2 H3))|].
  exact (SetValue_GetValue demo_world "abcT" Nil int64_max demo_world_wf H2 H3).
Defined.

(** ** Reads *)

(** X4.  On a miss the value is the zero value: [GetValue] never returns a
    value together with [false], and [GetString] returns the empty string
    with each of its two errors, which are its only errors. *)
Theorem miss_returns_zero_value (w w' : World) (k : string) :
  (forall v, GetValue k w = Some ((v, false), w') -> v = Nil) /\
  (forall s e, GetString k w = Some ((s, e), w') -> e <> nil_error ->
     s = EmptyString /\ (e = err_key_not_found \/ e = err_not_string)).
Proof.
  assert (forall v, GetValue k w = Some ((v, false), w') -> v = Nil) as Hget.
  { intros v. unfold GetValue, getCache, getSplitKey. go_unfold.
    destruct (splitKey _ _) as [p|]; [|done].
    destruct (caches (group w) !! p) as [l|]; [|congruence].
    unfold Cache_getValue. go_unfold.
    destruct (heap w !! l) as [c|]; [|done].
    destruct (items c !! k) as [it|]; [destruct (_ && _)|]; congruence. }
  split; [done|]. intros s e. rewrite GetString_eq.
  destruct (GetValue k w) as [[[v [|]] w1]|]; [destruct v| |]; intros [= <- <- _] He;
    try done; split; auto.
Qed.

Lemma miss_returns_zero_value_witness :
  (GetValue "abcT" demo_world = Some ((Nil, false), demo_world) /\
   GetString "abcT" demo_world = Some ((EmptyString, err_key_not_found), demo_world) /\
   err_key_not_found <> nil_error) /\
  Nil = Nil /\
  (EmptyString = EmptyString /\
   (err_key_not_found = err_key_not_found \/ err_key_not_found = err_not_string)).
Proof.
  assert (GetValue "abcT" demo_world = Some ((Nil, false), demo_world)) as H1
    by (vm_compute; reflexivity).
  assert (GetString "abcT" demo_world =
          Some ((EmptyString, err_key_not_found), demo_world)) as H2
    by (vm_compute; reflexivity).
  assert (err_key_not_found <> nil_error) as H3 by discriminate.
  destruct (miss_returns_zero_value demo_world demo_world "abcT") as [G1 G2].
  split; [exact (conj H1 (conj H2 H3))|].
  split; [exact (G1 Nil H1)|exact (G2 _ _ H2 H3)].
Defined.

(** X5.  Expiry is permanent: once [GetValue(k)] has answered [false], it
    answers [(nil, false)] after any further wait, as long as the clock
    stays within [int64] nanoseconds and nothing else runs. *)
Theorem GetValue_miss_is_stable (w : World) (k : string) (v : iface) (d : N) :
  int64_min <= clock w -> clock w + Z.of_N d <= int64_max ->
  GetValue k w = Some ((v, false), w) ->
  (wait d ;;; GetValue k) w = Some ((Nil, false), set_clock (clock w + Z.of_N d) w).
Proof.
  intros Hmin Hmax Hg.
  unfold bind at 1. unfold wait, modify.
  set (w' := set_clock (clock w + Z.of_N d) w).
  destruct (splitKey (keyLen (group w)) k) as [p|] eqn:Hp.
  - assert (splitKey (keyLen (group w')) k = Some p) as Hp' by exact Hp.
    rewrite (GetValue_eq w k p Hp) in Hg. rewrite (GetValue_eq w' k p Hp').
    change (caches (group w')) with (caches (group w)).
    destruct (caches (group w) !! p) as [l|]; [|done].
    destruct (heap w !! l) as [c|] eqn:Hc.
    + rewrite (Cache_getValue_eq w l c k Hc) in Hg.
      rewrite (Cache_getValue_eq w' l c k Hc).
      unfold visible in *. destruct (items c !! k) as [it|]; [|done].
      unfold sweepable, Time_UnixNano in *. simpl.
      rewrite wrap64_id in Hg by (unfold in_int64; lia).
      rewrite wrap64_id by (unfold in_int64; lia).
      destruct (Z.ltb_spec 0 (expiration it)); simpl in *;
        destruct (Z.ltb_spec (expiration it) (clock w)); try done.
      destruct (Z.ltb_spec (expiration it) (clock w + Z.of_N d)); [done|lia].
    + unfold Cache_getValue in Hg. revert Hg. go_unfold. by rewrite Hc.
  - unfold GetValue, getCache, bind in Hg. by rewrite getSplitKey_eq, Hp in Hg.
Qed.

Lemma GetValue_miss_is_stable_witness :
  (int64_min <= clock demo_world /\ clock demo_world + Z.of_N 5000 <= int64_max /\
   GetValue "abcT" demo_world = Some ((Nil, false), demo_world)) /\
  (wait 5000 ;;; GetValue "abcT") demo_world =
    Some ((Nil, false), set_clock (clock demo_world + Z.of_N 5000) demo_world).
Proof.
  assert (int64_min <= clock demo_world) as H1 by (vm_compute; discriminate).
  assert (clock demo_world + Z.of_N 5000 <= int64_max) as H2
    by (vm_compute; discriminate).
  assert (GetValue "abcT" demo_world = Some ((Nil, false), demo_world)) as H3
    by (vm_compute; reflexivity).
  split; [exact (conj H1 (conj H2 H3))|].
  exact (GetValue_miss_is_stable demo_world "abcT" Nil 5000 H1 H2 H3).
Defined.

(** ** Frames *)

(** X6.  [SetValue(k, ...)] does not change what [GetValue] returns for any
    other key, whether it lives in the same shard, in another one, or in
    none; this holds also when the write creates the shard. *)
Theorem SetValue_frame (w : World) (k k' : string) (v : iface) (ttl : Z) :
  wf w -> k' <> k ->
  exists w', SetValue k v ttl w = Some (tt, w') /\
             fst <$> GetValue k' w' = fst <$> GetValue k' w.
Proof.
  intros Hwf Hne. destruct (wf_splitKey w k Hwf) as [p Hp].
  destruct (wf_splitKey w k' Hwf) as [p' Hp'].
  destruct (SetValue_spec w k p v ttl Hwf Hp)
    as (l & w' & Hs & Hwf' & Hk' & Hc' & Hd' & He' & Hsame & Hfr & Hfresh).
  exists w'. split; [done|].
  assert (splitKey (keyLen (group w')) k' = Some p') as Hp1 by (by rewrite Hk').
  rewrite (GetValue_eq w' k' p' Hp1), (GetValue_eq w k' p' Hp'), Hd'.
  assert (forall l1 w1, is_Some (heap w1 !! l1) ->
            fst <$> Cache_getValue l1 k' w1 =
            Some (visible (Time_UnixNano (clock w1)) (entry l1 k' w1))) as Hview.
  { intros l1 w1 [c1 Hc1]. rewrite (Cache_getValue_eq _ _ _ _ Hc1).
    unfold entry. by rewrite Hc1. }
  pose proof Hwf as (_ & Hdir & _). pose proof Hwf' as (_ & Hdir' & _).
  assert (caches (group w') !! p = Some l) as Hl'
    by (rewrite Hd'; apply lookup_insert_eq).
  revert Hs. rewrite (SetValue_eq _ _ _ _ _ Hp).
  destruct (caches (group w) !! p) as [l0|] eqn:Hl0.
  - specialize (Hsame l0 eq_refl). subst l0. intros Hs.
    destruct (Hdir _ _ Hl0) as [c Hc].
    rewrite (Cache_setValue_eq _ _ _ _ _ _ Hc) in Hs. injection Hs as <-.
    rewrite insert_id by done.
    destruct (caches (group w) !! p') as [l1|] eqn:Hl1; [|done].
    rewrite !Hview; [|by apply (Hdir _ _ Hl1)|].
    2:{ simpl. rewrite lookup_insert. case_decide; [by eexists|by apply (Hdir _ _ Hl1)]. }
    do 2 f_equal. destruct (decide (l1 = l)) as [->|Hl].
    + rewrite entry_store_eq. simpl. rewrite lookup_insert_ne by done.
      unfold entry. by rewrite Hc.
    + by rewrite entry_store_ne.
  - simpl. intros Hs.
    erewrite Cache_setValue_eq in Hs; [|simpl; apply lookup_insert_eq].
    injection Hs as <-. specialize (Hfresh eq_refl). subst l.
    rewrite lookup_insert. case_decide as Hpp.
    + subst p'. rewrite Hl0.
      erewrite Cache_getValue_eq; [|simpl; apply lookup_insert_eq].
      simpl. by rewrite lookup_insert_ne, lookup_empty.
    + destruct (caches (group w) !! p') as [l1|] eqn:Hl1; [|done].
      destruct (Hdir _ _ Hl1) as [c1 Hc1].
      rewrite (Cache_getValue_eq w l1 c1 k' Hc1).
      erewrite (Cache_getValue_eq _ l1 c1 k'); [done|]. simpl.
      rewrite insert_insert_eq, lookup_insert_ne; [done|].
      apply fresh_ne. by rewrite Hc1.
Qed.

Lemma SetValue_frame_witness :
  (wf demo_world /\ "abcS" <> "abcT") /\
  exists w', SetValue "abcT" (IntVal 9) 0 demo_world = Some (tt, w') /\
             fst <$> GetValue "abcS" w' = fst <$> GetValue "abcS" demo_world.
Proof.
  assert ("abcS" <> "abcT") as H by discriminate.
  split; [exact (conj demo_world_wf H)|].
  exact (SetValue_frame demo_world "abcT" "abcS" (IntVal 9) 0 demo_world_wf H).
Defined.

(** X7.  [deleteCache(k')] does not change what [GetValue(k)] returns when
    [k] and [k'] have different identifiers. *)
Theorem deleteCache_frame (w w' : World) (k k' p p' : string) (e : error) :
  splitKey (keyLen (group w)) k = Some p ->
  splitKey (keyLen (group w)) k' = Some p' ->
  p <> p' ->
  deleteCache k' w = Some (e, w') ->
  fst <$> GetValue k w' = fst <$> GetValue k w.
Proof.
  intros Hp Hp' Hne. rewrite (deleteCache_eq _ _ _ Hp').
  destruct (caches (group w) !! p') as [l'|]; intros [= _ <-]; [|done].
  assert (splitKey (keyLen (group (set_group (set_caches (delete p')) w))) k = Some p)
    as Hp1 by exact Hp.
  rewrite (GetValue_eq _ k p Hp1), (GetValue_eq w k p Hp). simpl.
  rewrite lookup_delete_ne by done.
  destruct (caches (group w) !! p) as [l|]; [|done].
  destruct (heap w !! l) as [c|] eqn:Hc.
  - rewrite (Cache_getValue_eq w l c k Hc).
    by rewrite (Cache_getValue_eq (set_group (set_caches (delete p')) w) l c k Hc).
  - unfold Cache_getValue. go_unfold. simpl. by rewrite Hc.
Qed.

Lemma deleteCache_frame_witness :
  let w := MkWorld 1000
             {[1%positive := MkCache {["abcS" := Item (StringVal "hello") 0]}
                               (Janitor defultInterval) 0;
               2%positive := MkCache ∅ (Janitor defultInterval) 0]}
             ∅ (MkCacheGroup {["abc" := 1%positive; "xyz" := 2%positive]} 0 3) in
  let w' := set_group (set_caches (delete "xyz")) w in
  (splitKey (keyLen (group w)) "abcS" = Some "abc" /\
   splitKey (keyLen (group w)) "xyz1" = Some "xyz" /\ "abc" <> "xyz" /\
   deleteCache "xyz1" w = Some (nil_error, w')) /\
  fst <$> GetValue "abcS" w' = fst <$> GetValue "abcS" w.
Proof.
  intros w w'.
  assert (splitKey (keyLen (group w)) "abcS" = Some "abc") as H1 by reflexivity.
  assert (splitKey (keyLen (group w)) "xyz1" = Some "xyz") as H2 by reflexivity.
  assert ("abc" <> "xyz") as H3 by discriminate.
  assert (deleteCache "xyz1" w = Some (nil_error, w')) as H4
    by (vm_compute; reflexivity).
  split; [exact (conj H1 (conj H2 (conj H3 H4)))|].
  exact (deleteCache_frame w w' "abcS" "xyz1" "abc" "xyz" nil_error H1 H2 H3 H4).
Defined.

(** ** The sweeper, continued *)

(** X8.  Sweeps compose: sweeping with a reading [now1] and then with a
    later reading [now2] leaves the map that one sweep with [now2] leaves;
    in particular a second sweep with the same reading removes nothing. *)
Theorem sweep_sweep (now1 now2 : Z) (m : gmap string item) :
  now1 <= now2 -> sweep now2 (sweep now1 m) = sweep now2 m.
Proof.
  intros Hle. apply map_eq. intros k. rewrite !lookup_sweep.
  destruct (m !! k) as [v|]; [|done].
  destruct (sweepable now1 v) eqn:H1; [|done].
  destruct (sweepable now2 v) eqn:H2; [done|].
  unfold sweepable in H1, H2.
  apply andb_true_iff in H1 as [Hp H1]. rewrite Hp in H2. simpl in H2.
  apply Z.ltb_lt in H1. apply Z.ltb_ge in H2. lia.
Qed.

Lemma sweep_sweep_witness :
  let m : gmap string item :=
    {["a" := Item Nil 0; "b" := Item Nil 5; "c" := Item Nil 15; "d" := Item Nil 25]} in
  10 <= 20 /\ sweep 20 (sweep 10 m) = sweep 20 m.
Proof.
  intros m. assert (10 <= 20) as H by lia.
  split; [exact H|]. exact (sweep_sweep 10 20 m H).
Defined.

Lemma visible_sweep (jnow now : Z) (m : gmap string item) (k : string) :
  jnow <= now -> visible now (sweep jnow m !! k) = visible now (m !! k).
Proof.
  intros Hle. rewrite lookup_sweep.
  destruct (m !! k) as [it|]; [|done].
  destruct (sweepable jnow it) eqn:H1; [|done]. simpl.
  destruct (sweepable now it) eqn:H2; [done|].
  unfold sweepable in H1, H2.
  apply andb_true_iff in H1 as [Hp H1]. rewrite Hp in H2. simpl in H2.
  apply Z.ltb_lt in H1. apply Z.ltb_ge in H2. lia.
Qed.

(** X9.  A sweep is not observable through [GetValue]: when the janitor's
    reading is not ahead of the clock, the tick changes the answer of
    [GetValue] for no key, since every entry it removes was already
    hidden. *)
Theorem janitor_tick_unobservable (w : World) (l : loc) (jnow : Z) (k : string) :
  wf w ->
  goroutines w !! l = Some (AtSelect jnow) ->
  jnow <= Time_UnixNano (clock w) ->
  exists w', janitor_run_tick l w = Some (tt, w') /\
             fst <$> GetValue k w' = fst <$> GetValue k w.
Proof.
  intros Hwf Hg Hle. pose proof Hwf as (_ & Hdir & Hgo).
  destruct (Hgo _ _ Hg) as [c Hc].
  rewrite janitor_run_tick_eq, Hg, Hc. eexists. split; [done|].
  set (w' := set_goroutines _ _).
  destruct (wf_splitKey w k Hwf) as [p Hp].
  assert (splitKey (keyLen (group w')) k = Some p) as Hp' by exact Hp.
  rewrite (GetValue_eq w' k p Hp'), (GetValue_eq w k p Hp).
  change (caches (group w')) with (caches (group w)).
  destruct (caches (group w) !! p) as [l1|] eqn:Hl1; [|done].
  destruct (Hdir _ _ Hl1) as [c1 Hc1].
  rewrite (Cache_getValue_eq w l1 c1 k Hc1).
  destruct (decide (l1 = l)) as [->|Hne].
  - assert (c1 = c) as -> by congruence.
    erewrite (Cache_getValue_eq w' l); [|simpl; apply lookup_insert_eq].
    simpl. f_equal. by apply visible_sweep.
  - erewrite (Cache_getValue_eq w' l1 c1); [done|].
    simpl. by rewrite lookup_insert_ne.
Qed.

Lemma janitor_tick_unobservable_witness :
  (wf demo_world /\ goroutines demo_world !! 1%positive = Some (AtSelect 950) /\
   950 <= Time_UnixNano (clock demo_world)) /\
  exists w', janitor_run_tick 1%positive demo_world = Some (tt, w') /\
             fst <$> GetValue "abcT" w' = fst <$> GetValue "abcT" demo_world.
Proof.
  assert (goroutines demo_world !! 1%positive = Some (AtSelect 950)) as H1
    by reflexivity.
  assert (950 <= Time_UnixNano (clock demo_world)) as H2
    by (vm_compute; discriminate).
  split; [exact (conj demo_world_wf (conj H1 H2))|].
  exact (janitor_tick_unobservable demo_world 1%positive 950 "abcT"
           demo_world_wf H1 H2).
Defined.

(** X10.  A tick only removes, and only in its own shard: it leaves the
    group, the clock and every other [Cache] as they are, every entry found
    after it was there before with the same value and expiration, and
    every entry without expiration is still there. *)
Theorem janitor_tick_only_removes (w w' : World) (l : loc) :
  janitor_run_tick l w = Some (tt, w') ->
  group w' = group w /\ clock w' = clock w /\
  (forall l', l' <> l -> heap w' !! l' = heap w !! l') /\
  (forall l' k it, entry l' k w' = Some it -> entry l' k w = Some it) /\
  (forall l' k it, entry l' k w = Some it -> expiration it <= 0 ->
                   entry l' k w' = Some it) /\
  (forall c, heap w !! l = Some c ->
     exists c', heap w' !! l = Some c' /\ cache_janitor c' = cache_janitor c /\
                cache_expiration c' = cache_expiration c).
Proof.
  rewrite janitor_run_tick_eq.
  destruct (goroutines w !! l) as [[|now]|] eqn:Hg.
  - intros [= <-]. repeat split; try done. intros c Hc. by exists c.
  - destruct (heap w !! l) as [c|] eqn:Hc; [|done]. intros [= <-].
    assert (forall l' k, entry l' k
              (set_goroutines (insert l AtLoopTop)
                 (set_heap (insert l (set_items (sweep now) c)) w)) =
              if decide (l' = l)
              then match entry l k w with
                   | Some v => if sweepable now v then None else Some v
                   | None => None
                   end
              else entry l' k w) as He.
    { intros l' k. unfold entry. simpl. rewrite lookup_insert.
      destruct (decide (l = l')) as [<-|Hne].
      - rewrite decide_True by done. rewrite Hc. simpl. apply lookup_sweep.
      - rewrite decide_False by done. done. }
    split; [done|]. split; [done|].
    split; [intros l' Hne; simpl; by rewrite lookup_insert_ne|].
    split; [|split].
    + intros l' k it. rewrite He. case_decide as Hl; [subst l'|done].
      destruct (entry l k w) as [v|]; [|done]. by destruct (sweepable now v).
    + intros l' k it Hit Hexp. rewrite He. case_decide as Hl; [subst l'|done].
      rewrite Hit. unfold sweepable.
      destruct (Z.ltb_spec 0 (expiration it)); [lia|done].
    + intros c0 [= <-]. eexists. split; [simpl; apply lookup_insert_eq|done].
  - intros [= <-]. repeat split; try done. intros c Hc. by exists c.
Qed.

Lemma janitor_tick_only_removes_witness :
  exists w',
    janitor_run_tick 1%positive demo_world = Some (tt, w') /\
    group w' = group demo_world /\ clock w' = clock demo_world /\
    entry 1%positive "abcS" w' = Some (Item (StringVal "hello") 0) /\
    entry 1%positive "abcT" w' = None.
Proof.
  destruct (janitor_run_tick 1%positive demo_world) as [[[] w']|] eqn:Ht;
    [|by vm_compute in Ht].
  exists w'.
  destruct (janitor_tick_only_removes demo_world w' 1%positive Ht)
    as (G1 & G2 & _ & _ & G3 & _).
  split; [done|]. split; [exact G1|]. split; [exact G2|]. split.
  - apply G3; [reflexivity|]. simpl. lia.
  - vm_compute in Ht. injection Ht as <-. reflexivity.
Defined.

(** ** Shard creation *)

(** X11.  Creation is idempotent and the first creation wins: [addCache]
    on an identifier that has a shard changes nothing, whatever expiration
    and interval it is given; so of two [addCache] calls on keys with the
    same identifier the second one is without effect. *)
Theorem addCache_first_wins (w : World) (k k' p : string) (e i e' i' : Z) :
  splitKey (keyLen (group w)) k = Some p ->
  splitKey (keyLen (group w)) k' = Some p ->
  (is_Some (caches (group w) !! p) -> addCache k e i w = Some (tt, w)) /\
  exists w1, addCache k e i w = Some (tt, w1) /\
             is_Some (caches (group w1) !! p) /\
             addCache k' e' i' w1 = Some (tt, w1).
Proof.
  intros Hp Hp'. rewrite (addCache_eq _ _ _ _ _ Hp). split.
  - by intros [l ->].
  - destruct (caches (group w) !! p) as [l|] eqn:Hl.
    + exists w. split; [done|]. split; [by rewrite Hl|].
      by rewrite (addCache_eq _ _ _ _ _ Hp'), Hl.
    + eexists. split; [done|]. cbv zeta.
      set (w1 := set_group _ _).
      assert (caches (group w1) !! p = Some (fresh (dom (heap w)))) as Hl1
        by (simpl; apply lookup_insert_eq).
      split; [by rewrite Hl1|].
      assert (splitKey (keyLen (group w1)) k' = Some p) as Hp1 by exact Hp'.
      by rewrite (addCache_eq _ _ _ _ _ Hp1), Hl1.
Qed.

Lemma addCache_first_wins_witness :
  (splitKey (keyLen (group demo_world)) "abcX" = Some "abc" /\
   splitKey (keyLen (group demo_world)) "abcY" = Some "abc" /\
   is_Some (caches (group demo_world) !! "abc")) /\
  addCache "abcX" 5 7 demo_world = Some (tt, demo_world) /\
  exists w1, addCache "abcX" 5 7 demo_world = Some (tt, w1) /\
             is_Some (caches (group w1) !! "abc") /\
             addCache "abcY" 0 0 w1 = Some (tt, w1).
Proof.
  assert (splitKey (keyLen (group demo_world)) "abcX" = Some "abc") as H1
    by reflexivity.
  assert (splitKey (keyLen (group demo_world)) "abcY" = Some "abc") as H2
    by reflexivity.
  assert (is_Some (caches (group demo_world) !! "abc")) as H3
    by (exists 1%positive; reflexivity).
  destruct (addCache_first_wins demo_world "abcX" "abcY" "abc" 5 7 0 0 H1 H2)
    as [G1 G2].
  split; [exact (conj H1 (conj H2 H3))|]. split; [exact (G1 H3)|exact G2].
Defined.

(** X12.  [addCache] on an identifier without shard allocates a new
    [Cache] that no pointer referred to, empty, with its janitor at the top
    of its loop and sweeping every [interval] nanoseconds, or every second
    when [interval <= 0]; it enters it in the directory and touches no
    other [Cache].  Every key of that identifier is then a miss. *)
Theorem addCache_creates (w : World) (key p : string) (e i : Z) :
  splitKey (keyLen (group w)) key = Some p ->
  caches (group w) !! p = None ->
  exists l c w',
    addCache key e i w = Some (tt, w') /\
    heap w !! l = None /\
    heap w' = <[l := c]> (heap w) /\
    caches (group w') = <[p := l]> (caches (group w)) /\
    goroutines w' = <[l := AtLoopTop]> (goroutines w) /\
    items c = ∅ /\
    0 < interval (cache_janitor c) /\
    interval (cache_janitor c) = (if i <=? 0 then time_Second else i) /\
    cache_expiration c =
      (if e <=? 0 then 0 else Time_UnixNano (Time_Add (clock w) e)) /\
    (forall k, splitKey (keyLen (group w)) k = Some p ->
               GetValue k w' = Some ((Nil, false), w')).
Proof.
  intros Hp Hnone. rewrite (addCache_eq _ _ _ _ _ Hp), Hnone. cbv zeta.
  exists (fresh (dom (heap w))), (fresh_cache (clock w) e i). eexists.
  split; [done|]. split; [apply fresh_loc_None|].
  split; [done|]. split; [done|]. split; [done|]. split; [done|].
  split; [|split; [|split]].
  - simpl. unfold defultInterval, time_Second.
    destruct (Z.leb_spec i 0); simpl; lia.
  - simpl. unfold defultInterval, time_Second. by destruct (i <=? 0).
  - done.
  - intros k Hk. set (w' := set_group _ _).
    assert (splitKey (keyLen (group w')) k = Some p) as Hk' by exact Hk.
    rewrite (GetValue_eq w' k p Hk'). simpl. rewrite lookup_insert_eq.
    erewrite Cache_getValue_eq; [|simpl; apply lookup_insert_eq].
    simpl. by rewrite lookup_empty.
Qed.

Lemma addCache_creates_witness :
  (splitKey (keyLen (group demo_world)) "xyz1" = Some "xyz" /\
   caches (group demo_world) !! "xyz" = None) /\
  exists l c w',
    addCache "xyz1" 0 (-4) demo_world = Some (tt, w') /\
    heap demo_world !! l = None /\
    heap w' = <[l := c]> (heap demo_world) /\
    caches (group w') = <[("xyz" : string) := l]> (caches (group demo_world)) /\
    goroutines w' = <[l := AtLoopTop]> (goroutines demo_world) /\
    items c = ∅ /\
    0 < interval (cache_janitor c) /\
    interval (cache_janitor c) = time_Second /\
    cache_expiration c = 0 /\
    (forall k, splitKey (keyLen (group demo_world)) k = Some "xyz" ->
               GetValue k w' = Some ((Nil, false), w')).
Proof.
  assert (splitKey (keyLen (group demo_world)) "xyz1" = Some "xyz") as H1
    by reflexivity.
  assert (caches (group demo_world) !! "xyz" = None) as H2 by reflexivity.
  split; [exact (conj H1 H2)|].
  exact (addCache_creates demo_world "xyz1" "xyz" 0 (-4) H1 H2).
Defined.

(** X13.  [addDefultCache] is get-or-create: it returns the [Cache] that
    the directory holds for the identifier afterwards; when there was one
    already it returns that one and changes nothing, and calling it again
    returns the same [Cache] and changes nothing. *)
Theorem addDefultCache_get_or_create (w : World) (key p : string) :
  splitKey (keyLen (group w)) key = Some p ->
  exists l w',
    addDefultCache key w = Some (l, w') /\
    caches (group w') !! p = Some l /\
    getCache key w' = Some (Some l, w') /\
    addDefultCache key w' = Some (l, w') /\
    (forall l0, caches (group w) !! p = Some l0 -> l = l0 /\ w' = w) /\
    (caches (group w) !! p = None ->
     heap w !! l = None /\
     heap w' !! l = Some (MkCache ∅ (Janitor time_Second) 0)).
Proof.
  intros Hp. rewrite (addDefultCache_eq _ _ _ Hp).
  destruct (caches (group w) !! p) as [l|] eqn:Hl.
  - exists l, w. split; [done|]. split; [done|].
    split; [by rewrite (getCache_eq _ _ _ Hp), Hl|].
    split; [by rewrite (addDefultCache_eq _ _ _ Hp), Hl|].
    split; [by intros l0 [= <-]|done].
  - cbv zeta. eexists _, _. split; [done|].
    set (w' := set_group _ _).
    assert (caches (group w') !! p = Some (fresh (dom (heap w)))) as Hl'
      by (simpl; apply lookup_insert_eq).
    assert (splitKey (keyLen (group w')) key = Some p) as Hp' by exact Hp.
    split; [done|].
    split; [by rewrite (getCache_eq _ _ _ Hp'), Hl'|].
    split; [by rewrite (addDefultCache_eq _ _ _ Hp'), Hl'|].
    split; [done|]. intros _. split; [apply fresh_loc_None|].
    simpl. by rewrite lookup_insert_eq.
Qed.

Lemma addDefultCache_get_or_create_witness :
  splitKey (keyLen (group demo_world)) "xyz1" = Some "xyz" /\
  exists l w',
    addDefultCache "xyz1" demo_world = Some (l, w') /\
    caches (group w') !! "xyz" = Some l /\
    getCache "xyz1" w' = Some (Some l, w') /\
    addDefultCache "xyz1" w' = Some (l, w').
Proof.
  assert (splitKey (keyLen (group demo_world)) "xyz1" = Some "xyz") as H1
    by reflexivity.
  split; [exact H1|].
  destruct (addDefultCache_get_or_create demo_world "xyz1" "xyz" H1)
    as (l & w' & G1 & G2 & G3 & G4 & _).
  exists l, w'. exact (conj G1 (conj G2 (conj G3 G4))).
Defined.

(** X14.  [SetValue] creates a shard only for an identifier that has none:
    when the directory has a shard for the identifier of the key, the
    write keeps the group, the goroutines and the set of allocated
    [Cache]s, changes only the map of that shard, and only at that key. *)
Theorem SetValue_reuses_shard (w : World) (k p : string) (l : loc) (c : Cache)
    (v : iface) (ttl : Z) :
  splitKey (keyLen (group w)) k = Some p ->
  caches (group w) !! p = Some l ->
  heap w !! l = Some c ->
  exists w' c',
    SetValue k v ttl w = Some (tt, w') /\
    group w' = group w /\ goroutines w' = goroutines w /\ clock w' = clock w /\
    dom (heap w') = dom (heap w) /\
    heap w' = <[l := c']> (heap w) /\
    cache_janitor c' = cache_janitor c /\
    cache_expiration c' = cache_expiration c /\
    items c' = <[k := Item v (stamp (clock w) ttl)]> (items c).
Proof.
  intros Hp Hl Hc. rewrite (SetValue_eq _ _ _ _ _ Hp), Hl.
  rewrite (Cache_setValue_eq _ _ _ _ _ _ Hc). eexists _, _.
  split; [done|]. repeat split; try done. simpl.
  apply dom_insert_lookup_L. by eexists.
Qed.

Lemma SetValue_reuses_shard_witness :
  let c := MkCache {["abcS" := Item (StringVal "hello") 0;
                     "abcT" := Item (IntVal 5) 900]} (Janitor defultInterval) 0 in
  (splitKey (keyLen (group demo_world)) "abcU" = Some "abc" /\
   caches (group demo_world) !! "abc" = Some 1%positive /\
   heap demo_world !! 1%positive = Some c) /\
  exists w' c',
    SetValue "abcU" (BoolVal true) 25 demo_world = Some (tt, w') /\
    group w' = group demo_world /\ goroutines w' = goroutines demo_world /\
    clock w' = clock demo_world /\
    dom (heap w') = dom (heap demo_world) /\
    heap w' = <[1%positive := c']> (heap demo_world) /\
    cache_janitor c' = cache_janitor c /\
    cache_expiration c' = cache_expiration c /\
    items c' = <[("abcU" : string) := Item (BoolVal true) (stamp (clock demo_world) 25)]> (items c).
Proof.
  intros c.
  assert (splitKey (keyLen (group demo_world)) "abcU" = Some "abc") as H1
    by reflexivity.
  assert (caches (group demo_world) !! "abc" = Some 1%positive) as H2
    by reflexivity.
  assert (heap demo_world !! 1%positive = Some c) as H3 by reflexivity.
  split; [exact (conj H1 (conj H2 H3))|].
  exact (SetValue_reuses_shard demo_world "abcU" "abc" 1%positive c
           (BoolVal true) 25 H1 H2 H3).
Defined.

(** X15.  Deleted entries do not come back: after [deleteCache(k)] has
    removed a shard, a [SetValue(k, v, ttl)] builds a new shard in a [Cache]
    allocated for it, which holds the entry of [k] alone; every other key
    of the identifier is a miss. *)
Theorem deleted_entries_stay_gone (w : World) (k p : string) (l : loc)
    (v : iface) (ttl : Z) :
  wf w ->
  splitKey (keyLen (group w)) k = Some p ->
  caches (group w) !! p = Some l ->
  exists w1 w2 l',
    deleteCache k w = Some (nil_error, w1) /\
    SetValue k v ttl w1 = Some (tt, w2) /\
    caches (group w2) !! p = Some l' /\ l' <> l /\
    heap w2 !! l' = Some (MkCache {[k := Item v (stamp (clock w) ttl)]}
                            (Janitor time_Second) 0) /\
    (forall k', k' <> k -> splitKey (keyLen (group w)) k' = Some p ->
                GetValue k' w2 = Some ((Nil, false), w2)).
Proof.
  intros Hwf Hp Hl. pose proof Hwf as (_ & Hdir & _).
  rewrite (deleteCache_eq _ _ _ Hp), Hl.
  set (w1 := set_group (set_caches (delete p)) w).
  assert (splitKey (keyLen (group w1)) k = Some p) as Hp1 by exact Hp.
  assert (caches (group w1) !! p = None) as Hn1 by (simpl; apply lookup_delete_eq).
  exists w1. rewrite (SetValue_eq w1 k p v ttl Hp1), Hn1. cbv zeta.
  erewrite Cache_setValue_eq; [|simpl; apply lookup_insert_eq].
  eexists _, (fresh (dom (heap w))).
  split; [done|]. split; [done|]. simpl.
  split; [apply lookup_insert_eq|].
  split; [apply fresh_ne, (Hdir _ _ Hl)|].
  split.
  { rewrite lookup_insert_eq. unfold set_items, fresh_cache, newJanitor,
      defultExpiration, defultInterval, time_Second. simpl.
    by rewrite insert_empty. }
  intros k' Hne Hk'.
  set (w2 := set_heap _ _).
  assert (splitKey (keyLen (group w2)) k' = Some p) as Hk2 by exact Hk'.
  rewrite (GetValue_eq w2 k' p Hk2). simpl. rewrite lookup_insert_eq.
  erewrite Cache_getValue_eq; [|simpl; apply lookup_insert_eq].
  simpl. by rewrite lookup_insert_ne, lookup_empty.
Qed.

Lemma deleted_entries_stay_gone_witness :
  (wf demo_world /\ splitKey (keyLen (group demo_world)) "abcT" = Some "abc" /\
   caches (group demo_world) !! "abc" = Some 1%positive) /\
  exists w1 w2 l',
    deleteCache "abcT" demo_world = Some (nil_error, w1) /\
    SetValue "abcT" (IntVal 6) 0 w1 = Some (tt, w2) /\
    caches (group w2) !! "abc" = Some l' /\ l' <> 1%positive /\
    heap w2 !! l' = Some (MkCache {["abcT" := Item (IntVal 6) (stamp (clock demo_world) 0)]}
                            (Janitor time_Second) 0) /\
    (forall k', k' <> "abcT" -> splitKey (keyLen (group demo_world)) k' = Some "abc" ->
                GetValue k' w2 = Some ((Nil, false), w2)).
Proof.
  assert (splitKey (keyLen (group demo_world)) "abcT" = Some "abc") as H1
    by reflexivity.
  assert (caches (group demo_world) !! "abc" = Some 1%positive) as H2
    by reflexivity.
  split; [exact (conj demo_world_wf (conj H1 H2))|].
  exact (deleted_entries_stay_gone demo_world "abcT" "abc" 1%positive (IntVal 6) 0
           demo_world_wf H1 H2).
Defined.

(** ** Invariants of every run *)

Lemma sound_heap_update (w : World) (l : loc) (c c' : Cache) :
  sound w ->
  heap w !! l = Some c ->
  cache_janitor c' = cache_janitor c ->
  (forall p k it, caches (group w) !! p = Some l -> items c' !! k = Some it ->
                  splitKey (keyLen (group w)) k = Some p) ->
  sound (set_heap (insert l c') w).
Proof.
  intros (Hwf & Hk & Hinj & Hrt & Hal) Hc Hj Hnew.
  split; [by apply wf_store|]. split; [done|]. split; [done|]. split.
  - intros p l' k it Hl' He. simpl in Hl'.
    destruct (decide (l' = l)) as [->|Hne].
    + rewrite entry_store_eq in He. by eapply Hnew.
    + rewrite entry_store_ne in He by done. by eapply Hrt.
  - intros l' c1. simpl. rewrite lookup_insert. case_decide as Hl.
    + subst l'. intros [= <-]. rewrite Hj. by apply Hal.
    + apply Hal.
Qed.

Lemma sound_goroutine (w : World) (l : loc) (pc : run_pc) :
  sound w -> is_Some (heap w !! l) ->
  sound (set_goroutines (insert l pc) w).
Proof.
  intros ((Hn & Hd & Hg) & Hk & Hinj & Hrt & Hal) Hl.
  split; [|split; [done|split; [done|split; [done|]]]].
  - split; [done|]. split; [done|]. intros l' pc'. simpl.
    rewrite lookup_insert. case_decide; [by subst|apply Hg].
  - intros l' c Hc. simpl. rewrite lookup_insert.
    case_decide; [|by apply Hal]. split; [by eexists|]. by eapply Hal.
Qed.

Lemma sound_alloc (w : World) (p : string) (c : Cache) :
  sound w ->
  caches (group w) !! p = None ->
  0 < interval (cache_janitor c) ->
  items c = ∅ ->
  sound (set_group (set_caches (insert p (fresh (dom (heap w)))))
           (alloc_cache (fresh (dom (heap w))) c w)).
Proof.
  intros (Hwf & Hk & Hinj & Hrt & Hal) Hnone Hint Hempty.
  pose proof Hwf as (_ & Hd & _).
  assert (forall q, caches (group w) !! q <> Some (fresh (dom (heap w)))) as Hfr.
  { intros q Hq. apply Hd in Hq. rewrite fresh_loc_None in Hq. by destruct Hq. }
  split; [by apply wf_alloc|]. split; [done|]. split; [|split].
  - intros p1 p2 l. simpl. rewrite !lookup_insert.
    repeat case_decide; subst; try done.
    + intros [= <-] Hq. by destruct (Hfr p2).
    + intros Hq [= <-]. by destruct (Hfr p1).
    + apply Hinj.
  - intros q l k it. simpl. rewrite lookup_insert. case_decide as Hq.
    + intros [= <-]. unfold entry. simpl. rewrite lookup_insert_eq, Hempty.
      by rewrite lookup_empty.
    + intros Hl. unfold entry. simpl.
      rewrite lookup_insert_ne by (intros <-; by destruct (Hfr q)).
      by apply Hrt.
  - intros l c1. simpl. rewrite !lookup_insert. case_decide as Hl.
    + intros [= <-]. split; [by eexists|done].
    + apply Hal.
Qed.

Lemma sound_delete (w : World) (p : string) :
  sound w -> sound (set_group (set_caches (delete p)) w).
Proof.
  intros ((Hn & Hd & Hg) & Hk & Hinj & Hrt & Hal).
  assert (forall q l, delete p (caches (group w)) !! q = Some l ->
                      caches (group w) !! q = Some l) as Hsub.
  { intros q l. rewrite lookup_delete. by case_decide. }
  split; [|split; [done|split; [|split; [|done]]]].
  - split; [done|]. split; [|done]. intros q l Hq. simpl in Hq. eauto.
  - intros p1 p2 l H1 H2. simpl in *. eauto.
  - intros q l k it Hq He. simpl in Hq. apply (Hrt q l k it); eauto.
Qed.

Lemma sound_clock (w : World) (t : Z) : sound w -> sound (set_clock t w).
Proof. done. Qed.

Lemma fresh_cache_interval (t e i : Z) :
  0 < interval (cache_janitor (fresh_cache t e i)).
Proof.
  simpl. unfold defultInterval, time_Second. destruct (Z.leb_spec i 0); simpl; lia.
Qed.

Lemma sound_setValue (w w' : World) (l : loc) (k p : string) (v : iface) (ttl : Z) :
  sound w ->
  splitKey (keyLen (group w)) k = Some p ->
  caches (group w) !! p = Some l ->
  Cache_setValue l k v ttl w = Some (tt, w') ->
  sound w'.
Proof.
  intros Hs Hp Hl. pose proof Hs as ((_ & Hd & _) & _ & Hinj & Hrt & _).
  destruct (Hd _ _ Hl) as [c Hc]. rewrite (Cache_setValue_eq _ _ _ _ _ _ Hc).
  intros [= <-]. apply (sound_heap_update w l c); [done|done|done|].
  intros q k' it Hq. simpl. rewrite lookup_insert. case_decide as Hkk.
  - subst k'. intros _. by rewrite (Hinj q p l Hq Hl).
  - intros Hit. apply (Hrt q l k' it Hq). unfold entry. by rewrite Hc.
Qed.

Lemma exec_sound (o : op) (w w' : World) (r : result) :
  sound w -> exec o w = Some (r, w') -> sound w'.
Proof.
  intros Hs. pose proof Hs as (Hwf & Hk & Hinj & Hrt & Hal).
  pose proof Hwf as (_ & Hd & Hg).
  destruct o as [key e i|key|key|key v ttl|key|d|l|l]; simpl; unfold bind at 1.
  - destruct (wf_splitKey w key Hwf) as [p Hp]. rewrite (addCache_eq _ _ _ _ _ Hp).
    destruct (caches (group w) !! p) as [l|] eqn:Hl; intros [= _ <-]; [done|].
    by apply sound_alloc; [| |apply fresh_cache_interval|].
  - destruct (GetValue key w) as [[rv w1]|] eqn:E; [|done].
    intros [= _ <-]. apply GetValue_frame in E. by subst.
  - destruct (GetString key w) as [[rv w1]|] eqn:E; [|done].
    intros [= _ <-]. apply GetString_frame in E. by subst.
  - destruct (wf_splitKey w key Hwf) as [p Hp]. rewrite (SetValue_eq _ _ _ _ _ Hp).
    destruct (caches (group w) !! p) as [l|] eqn:Hl.
    + destruct (Cache_setValue l key v ttl w) as [[[] w1]|] eqn:E; [|done].
      intros [= _ <-]. by eapply sound_setValue.
    + cbv zeta.
      destruct (Cache_setValue _ key v ttl _) as [[[] w1]|] eqn:E; [|done].
      intros [= _ <-]. eapply (sound_setValue _ _ _ key p); [| | |exact E].
      * by apply sound_alloc; [| |apply fresh_cache_interval|].
      * exact Hp.
      * simpl. apply lookup_insert_eq.
  - destruct (wf_splitKey w key Hwf) as [p Hp]. rewrite (deleteCache_eq _ _ _ Hp).
    destruct (caches (group w) !! p); intros [= _ <-]; [|done].
    by apply sound_delete.
  - intros [= _ <-]. by apply sound_clock.
  - rewrite janitor_run_now_eq.
    destruct (goroutines w !! l) as [[|now]|] eqn:Hl; intros [= _ <-]; try done.
    apply sound_goroutine; [done|]. by eapply Hg.
  - rewrite janitor_run_tick_eq.
    destruct (goroutines w !! l) as [[|now]|] eqn:Hl; try (by intros [= _ <-]).
    destruct (heap w !! l) as [c|] eqn:Hc; [|done]. intros [= _ <-].
    apply sound_goroutine; [|simpl; rewrite lookup_insert_eq; by eexists].
    apply (sound_heap_update w l c); [done|done|done|].
    intros q k it Hq. simpl. rewrite lookup_sweep.
    destruct (items c !! k) as [it'|] eqn:Hit; [|done].
    destruct (sweepable now it'); [done|]. intros [= <-].
    apply (Hrt q l k it' Hq). unfold entry. by rewrite Hc.
Qed.

Lemma run_sound (ops : list op) (w w' : World) (rs : list result) :
  sound w -> run ops w = Some (rs, w') ->
  sound w' /\ length rs = length ops.
Proof.
  revert w rs. induction ops as [|o ops IH]; intros w rs Hs; simpl.
  - by intros [= <- <-].
  - unfold bind. destruct (exec o w) as [[r w1]|] eqn:He; [|done].
    destruct (run ops w1) as [[rs1 w2]|] eqn:Hr; [|done].
    intros [= <- <-]. destruct (IH w1 rs1) as [Hs2 Hlen]; [|done|].
    + by eapply exec_sound.
    + split; [done|]. simpl. by rewrite Hlen.
Qed.

Lemma program_sound (t0 e : Z) (ops : list op) :
  exists rs w, program t0 e ops = Some (rs, w) /\ sound w /\
               length rs = length ops.
Proof.
  rewrite program_eq.
  set (W := MkWorld t0 ∅ ∅ (MkCacheGroup ∅ (Time_UnixNano (Time_Add t0 e)) defultKeyLen)).
  assert (sound W) as Hs.
  { split; [apply (start_wf t0 e); apply start_eq|]. split; [done|].
    split; [|split].
    - intros p1 p2 l. simpl. by rewrite lookup_empty.
    - intros p l k it. simpl. by rewrite lookup_empty.
    - intros l c. simpl. by rewrite lookup_empty. }
  destruct Hs as (Hwf & Hrest). pose proof (conj Hwf Hrest) as Hs.
  destruct (run_wf ops W Hwf) as (rs & w & Hr & _).
  exists rs, w. split; [done|]. by eapply run_sound.
Qed.

(** X16.  No run panics: from [NewCacheGroup], every schedule of calls,
    waits and janitor steps runs to completion with one result per step:
    no [time.NewTicker] on a non-positive interval when a janitor starts,
    whatever interval [addCache] is given, no slice out of range in
    [getSplitKey], no nil [*Cache]; the prefix length is still 3 at the
    end. *)
Theorem program_never_panics (t0 e : Z) (ops : list op) :
  exists rs w, program t0 e ops = Some (rs, w) /\
               length rs = length ops /\
               keyLen (group w) = 3 /\
               (forall p l, caches (group w) !! p = Some l -> is_Some (heap w !! l)).
Proof.
  destruct (program_sound t0 e ops) as (rs & w & Hp & Hs & Hlen).
  destruct Hs as ((_ & Hd & _) & Hk & _).
  exists rs, w. by repeat split.
Qed.

(** X17.  Shards never share storage: in the world that any run reaches,
    two different identifiers of the directory point to different
    [Cache]s. *)
Theorem shards_do_not_alias (t0 e : Z) (ops : list op) :
  exists rs w, program t0 e ops = Some (rs, w) /\
    forall p1 p2 l1 l2,
      caches (group w) !! p1 = Some l1 -> caches (group w) !! p2 = Some l2 ->
      p1 <> p2 -> l1 <> l2.
Proof.
  destruct (program_sound t0 e ops) as (rs & w & Hp & Hs & _).
  destruct Hs as (_ & _ & Hinj & _).
  exists rs, w. split; [done|]. intros p1 p2 l1 l2 H1 H2 Hne ->.
  by apply Hne, (Hinj p1 p2 l2).
Qed.

(** X18.  Entries live in the shard of their identifier: in the world that
    any run reaches, every entry stored in a shard of the directory has a
    key whose identifier is that of the shard. *)
Theorem entries_live_in_their_shard (t0 e : Z) (ops : list op) :
  exists rs w, program t0 e ops = Some (rs, w) /\
    forall p l k it,
      caches (group w) !! p = Some l -> entry l k w = Some it ->
      splitKey 3 k = Some p.
Proof.
  destruct (program_sound t0 e ops) as (rs & w & Hp & Hs & _).
  destruct Hs as (_ & Hk & _ & Hrt & _).
  exists rs, w. split; [done|]. intros p l k it Hl He.
  specialize (Hrt p l k it Hl He). by rewrite Hk in Hrt.
Qed.

(** X19.  Every [Cache] keeps a janitor with a usable ticker: in the world
    that any run reaches, each allocated [Cache], in the directory or
    deleted from it, has its janitor goroutine and a positive interval. *)
Theorem every_cache_has_a_janitor (t0 e : Z) (ops : list op) :
  exists rs w, program t0 e ops = Some (rs, w) /\
    forall l c, heap w !! l = Some c ->
      is_Some (goroutines w !! l) /\ 0 < interval (cache_janitor c).
Proof.
  destruct (program_sound t0 e ops) as (rs & w & Hp & Hs & _).
  destruct Hs as (_ & _ & _ & _ & Hal). by exists rs, w.
Qed.

Lemma extends_refl (w : World) : extends w w.
Proof. split; [|done]. intros l c Hc. by exists c. Qed.

Lemma extends_trans (w1 w2 w3 : World) :
  extends w1 w2 -> extends w2 w3 -> extends w1 w3.
Proof.
  intros [H1 G1] [H2 G2]. split; [|by auto].
  intros l c Hc. destruct (H1 l c Hc) as (c2 & Hc2 & Hj2 & He2).
  destruct (H2 l c2 Hc2) as (c3 & Hc3 & Hj3 & He3).
  exists c3. split; [done|]. split; congruence.
Qed.

Lemma extends_store (w : World) (l : loc) (c : Cache)
    (f : gmap string item -> gmap string item) :
  heap w !! l = Some c -> extends w (set_heap (insert l (set_items f c)) w).
Proof.
  intros Hc. split; [|done]. intros l' c'. simpl. rewrite lookup_insert.
  case_decide as Hl; [|by exists c'].
  subst l'. rewrite Hc. intros [= <-]. by eexists.
Qed.

Lemma extends_goroutine (w : World) (l : loc) (pc : run_pc) :
  extends w (set_goroutines (insert l pc) w).
Proof.
  split; [intros l' c Hc; by exists c|]. intros l'. simpl.
  rewrite lookup_insert. by case_decide.
Qed.

Lemma extends_group (w : World) (f : CacheGroup -> CacheGroup) :
  extends w (set_group f w).
Proof. exact (extends_refl w). Qed.

Lemma extends_alloc (w : World) (c : Cache) :
  extends w (alloc_cache (fresh (dom (heap w))) c w).
Proof.
  eapply extends_trans; [|apply extends_goroutine].
  split; [|done]. intros l c' Hc'. exists c'. simpl.
  rewrite lookup_insert_ne; [done|]. apply fresh_ne. by rewrite Hc'.
Qed.

Lemma Cache_setValue_extends (w w' : World) (l : loc) (k : string) (v : iface)
    (ttl : Z) :
  Cache_setValue l k v ttl w = Some (tt, w') -> extends w w'.
Proof.
  destruct (heap w !! l) as [c|] eqn:Hc.
  - rewrite (Cache_setValue_eq _ _ _ _ _ _ Hc). intros [= <-].
    by apply extends_store.
  - unfold Cache_setValue. go_unfold. destruct (0 <? ttl); simpl; by rewrite Hc.
Qed.

Lemma exec_extends (o : op) (w w' : World) (r : result) :
  exec o w = Some (r, w') -> extends w w'.
Proof.
  destruct o as [key e i|key|key|key v ttl|key|d|l|l]; simpl; unfold bind at 1.
  - destruct (splitKey (keyLen (group w)) key) as [p|] eqn:Hp.
    + rewrite (addCache_eq _ _ _ _ _ Hp).
      destruct (caches (group w) !! p); intros [= _ <-]; [apply extends_refl|].
      eapply extends_trans; [apply extends_alloc|apply extends_group].
    + unfold addCache, bind. by rewrite getSplitKey_eq, Hp.
  - destruct (GetValue key w) as [[rv w1]|] eqn:E; [|done].
    intros [= _ <-]. apply GetValue_frame in E. subst. apply extends_refl.
  - destruct (GetString key w) as [[rv w1]|] eqn:E; [|done].
    intros [= _ <-]. apply GetString_frame in E. subst. apply extends_refl.
  - destruct (splitKey (keyLen (group w)) key) as [p|] eqn:Hp.
    + rewrite (SetValue_eq _ _ _ _ _ Hp).
      destruct (caches (group w) !! p) as [l|].
      * destruct (Cache_setValue l key v ttl w) as [[[] w1]|] eqn:E; [|done].
        intros [= _ <-]. by eapply Cache_setValue_extends.
      * cbv zeta.
        destruct (Cache_setValue _ key v ttl _) as [[[] w1]|] eqn:E; [|done].
        intros [= _ <-].
        eapply extends_trans; [|by eapply Cache_setValue_extends].
        eapply extends_trans; [apply extends_alloc|apply extends_group].
    + unfold SetValue, getCache, bind. by rewrite getSplitKey_eq, Hp.
  - destruct (splitKey (keyLen (group w)) key) as [p|] eqn:Hp.
    + rewrite (deleteCache_eq _ _ _ Hp).
      destruct (caches (group w) !! p); intros [= _ <-];
        [apply extends_group|apply extends_refl].
    + unfold deleteCache, bind. by rewrite getSplitKey_eq, Hp.
  - intros [= _ <-]. exact (extends_refl w).
  - rewrite janitor_run_now_eq.
    destruct (goroutines w !! l) as [[|now]|]; intros [= _ <-];
      try apply extends_refl. apply extends_goroutine.
  - rewrite janitor_run_tick_eq.
    destruct (goroutines w !! l) as [[|now]|]; try (intros [= _ <-]; apply extends_refl).
    destruct (heap w !! l) as [c|] eqn:Hc; [|done]. intros [= _ <-].
    eapply extends_trans; [by apply extends_store|apply extends_goroutine].
Qed.

(** X20.  Nothing is ever freed or stopped: over any schedule, every
    [Cache] of the initial world is still allocated at the end, with the
    janitor interval and the expiration it was built with, and every
    janitor goroutine is still there; [deleteCache] only unlinks a shard
    from the directory. *)
Theorem caches_and_janitors_persist (ops : list op) (w w' : World)
    (rs : list result) :
  run ops w = Some (rs, w') ->
  (forall l c, heap w !! l = Some c ->
     exists c', heap w' !! l = Some c' /\
                cache_janitor c' = cache_janitor c /\
                cache_expiration c' = cache_expiration c) /\
  (forall l, is_Some (goroutines w !! l) -> is_Some (goroutines w' !! l)).
Proof.
  revert w rs. induction ops as [|o ops IH]; intros w rs; simpl.
  - intros [= _ <-]. apply extends_refl.
  - unfold bind. destruct (exec o w) as [[r w1]|] eqn:He; [|done].
    destruct (run ops w1) as [[rs1 w2]|] eqn:Hr; [|done].
    intros [= _ <-]. apply (extends_trans w w1 w2).
    + by eapply exec_extends.
    + by eapply IH.
Qed.

Lemma caches_and_janitors_persist_witness :
  let ops := [OpDeleteCache "abcS"; OpWait 5; OpSetValue "abcS" Nil 0;
              OpJanitorTick 1%positive; OpJanitorNow 1%positive] in
  exists rs w',
    run ops demo_world = Some (rs, w') /\
    caches (group w') !! "abc" = Some 2%positive /\
    (exists c', heap w' !! 1%positive = Some c' /\
                cache_janitor c' = Janitor defultInterval /\
                cache_expiration c' = 0) /\
    is_Some (goroutines w' !! 1%positive).
Proof.
  intros ops.
  destruct (run ops demo_world) as [[rs w']|] eqn:Hr; [|by vm_compute in Hr].
  exists rs, w'. destruct (caches_and_janitors_persist ops demo_world w' rs Hr)
    as [G1 G2].
  split; [done|]. split.
  - vm_compute in Hr. injection Hr as _ <-. reflexivity.
  - split; [apply (G1 1%positive _ eq_refl)|].
    apply G2. by exists (AtSelect 950).
Defined.

(** X21.  Typed round trip: at the instant of [SetValue(k, v, ttl)], with
    clock and [ttl] in [int64], [GetString(k)] returns [(s, nil)] when [v]
    is the string [s], the empty string included, and the error
    [value not is string] for every other [v], [nil] included. *)
Theorem SetValue_GetString (w : World) (k : string) (v : iface) (ttl : Z) :
  wf w -> in_int64 (clock w) -> in_int64 ttl ->
  exists w', SetValue k v ttl w = Some (tt, w') /\
    GetString k w' =
      Some (match v with
            | StringVal s => (s, nil_error)
            | _ => (EmptyString, err_not_string)
            end, w').
Proof.
  intros Hwf Hc Ht.
  destruct (read_your_write w k v ttl Hwf Hc Ht) as (w' & Hs & Hg).
  exists w'. split; [done|]. rewrite GetString_eq, Hg. by destruct v.
Qed.

Lemma SetValue_GetString_witness :
  (wf demo_world /\ in_int64 (clock demo_world) /\ in_int64 60) /\
  exists w', SetValue "abcT" (StringVal "") 60 demo_world = Some (tt, w') /\
    GetString "abcT" w' = Some ((EmptyString, nil_error), w').
Proof.
  assert (in_int64 (clock demo_world)) as H2 by (vm_compute; split; discriminate).
  assert (in_int64 60) as H3 by (vm_compute; split; discriminate).
  split; [exact (conj demo_world_wf (conj H2 H3))|].
  exact (SetValue_GetString demo_world "abcT" (StringVal "") 60 demo_world_wf H2 H3).
Defined.
